(** * IBM Model 2 translation model (model2.py): vocabulary, decoder state
      machine, scoring / greedy decoding loops and checkpoint selection.

    The tensor primitives imported from [layers] and from torch (embedding
    lookup, softmax scoring layer, attention, argmax) are taken as an
    interface; everything written in model2.py itself is embedded as
    executable definitions. *)

From stdpp Require Import gmap strings list.
From Stdlib Require Import SpecFloat.

Local Open Scope string_scope.
Local Open Scope list_scope.
Local Open Scope nat_scope.

(** ** class Vocab *)

Module Vocab.

(** [self.num_to_word] is a Python list, [self.word_to_num] a dict. *)
Record t : Type := mk {
  num_to_word : list string;
  word_to_num : gmap string nat
}.

Definition BOS : string := "<BOS>".
Definition EOS : string := "<EOS>".
Definition UNK : string := "<UNK>".

(** [words = {'<BOS>', '<EOS>', '<UNK>'}]: a Python set literal. *)
Definition reserved : list string := [BOS; EOS; UNK].

(** [{word: num for num, word in enumerate(l)}], entries inserted from
    left to right starting at number [start]. *)
Fixpoint enumerate_dict (start : nat) (l : list string)
    (d : gmap string nat) : gmap string nat :=
  match l with
  | [] => d
  | word :: l' => enumerate_dict (S start) l' (<[word := start]> d)
  end.

(** [__init__].  [list(words)] lists a set, whose iteration order Python
    does not fix; [order] is the order the interpreter happens to use. *)
Definition init (order : list string) : t :=
  mk order (enumerate_dict 0 order ∅).

(** [__contains__]: [word in self.word_to_num]. *)
Definition contains (v : t) (word : string) : bool :=
  bool_decide (is_Some (word_to_num v !! word)).

(** [__len__]. *)
Definition len (v : t) : nat := length (num_to_word v).

(** [add]. *)
Definition add (word : string) (v : t) : t :=
  if contains v word then v
  else
    let num := length (num_to_word v) in
    mk (num_to_word v ++ [word]) (<[word := num]> (word_to_num v)).

(** [discard] raises NotImplementedError unconditionally. *)
Definition discard (word : string) (v : t) : option t := None.

(** [self |= words] (MutableSet.__ior__): [add] every element in turn. *)
Definition ior (v : t) (words : list string) : t :=
  fold_left (fun v word => add word v) words v.

(** [numberize]; a dict subscript raises KeyError on a missing key. *)
Definition numberize (v : t) (word : string) : option nat :=
  match word_to_num v !! word with
  | Some num => Some num
  | None => word_to_num v !! UNK
  end.

(** [denumberize]; ids are list positions, a list subscript past the end
    raises IndexError. *)
Definition denumberize (v : t) (num : nat) : option string :=
  num_to_word v !! num.

(** The vocabularies the program can hold: a fresh one, in whichever
    order the reserved words were listed, grown by [add]. *)
Inductive built : t -> Prop :=
| built_init order : order ≡ₚ reserved -> built (init order)
| built_add v word : built v -> built (add word v).

(** The two tables describe the same bijection. *)
Definition consistent (v : t) : Prop :=
  NoDup (num_to_word v) ∧
  ∀ word num, word_to_num v !! word = Some num ↔ num_to_word v !! num = Some word.


(** [__iter__]: [iter(self.num_to_word)], the words in id order. *)
Definition iter (v : t) : list string := num_to_word v.

End Vocab.

(** ** Tensor primitives

    [Embedding], [SoftmaxLayer] and [attention] come from [layers];
    [torch.argmax(o).item()] and the subscript [o[enum]] from torch.  A
    rank-2 tensor is the list of its rows, so [len(fencs)] is [length]. *)

Class Layers : Type := {
  vec : Type;
  scalar : Type;
  Embedding : Type;
  embedding_apply : Embedding -> list nat -> list vec;
  SoftmaxLayer : Type;
  softmax_apply : SoftmaxLayer -> list vec -> list vec;
  attention : vec -> list vec -> list vec -> vec;
  argmax : vec -> nat;
  vec_get : vec -> nat -> option scalar;
  scalar_zero : scalar;
  scalar_add : scalar -> scalar -> scalar
}.

(** ** class Encoder *)

Module Encoder.
Section WithLayers.
Context {L : Layers}.

Record t : Type := mk { emb : Embedding }.

Definition sequence (self : t) (fnums : list nat) : list vec :=
  embedding_apply (emb self) fnums.
End WithLayers.
End Encoder.

(** ** class Decoder *)

Module Decoder.
Section WithLayers.
Context {L : Layers}.

(** [self.maxlen = 100]. *)
Definition maxlen : nat := 100.

(** A parameter tensor of shape [(maxlen, dims)]: its rows
    [0 .. maxlen-1].  Training changes the rows, never the shape. *)
Definition table : Type := nat -> vec.

(** [t[i]] for a non-negative [i]: IndexError from [maxlen] on. *)
Definition table_get (t : table) (i : nat) : option vec :=
  if decide (i < maxlen) then Some (t i) else None.

(** [t[:n]]: a slice never fails, it stops at the last row. *)
Definition table_prefix (t : table) (n : nat) : list vec :=
  map t (seq 0 (n `min` maxlen)).

Record t : Type := mk {
  fpos : table;
  epos : table;
  out : SoftmaxLayer
}.

Definition start (self : t) : nat := 0.

Definition step (self : t) (fencs : list vec) (state : nat) (enum : nat)
    : option (vec * nat) :=
  let flen := length fencs in
  let v := softmax_apply (out self) fencs in
  q ← table_get (epos self) state;
  let k := table_prefix (fpos self) flen in
  let o := attention q k v in
  Some (o, state + 1).
End WithLayers.
End Decoder.

(** ** Computations that may raise and that record the decoder calls

    The first component lists, in call order, the [state] argument of every
    call of [Decoder.step]; the second is the value, [None] once an
    exception has been raised. *)

Definition traced (A : Type) : Type := list nat * option A.

#[global] Instance traced_ret : MRet traced := fun A a => ([], Some a).

#[global] Instance traced_bind : MBind traced := fun A B f m =>
  match m with
  | (tr, None) => (tr, None)
  | (tr, Some a) => let '(tr', r) := f a in (tr ++ tr', r)
  end.

Definition lift {A : Type} (o : option A) : traced A := ([], o).

Definition calls {A : Type} (m : traced A) : list nat := m.1.

Definition result {A : Type} (m : traced A) : option A := m.2.

(** ** class Model *)

Module Model.
Section WithLayers.
Context {L : Layers}.

(** The vocabularies bound at module level by the main program. *)
Record globals : Type := mk_globals {
  g_fvocab : Vocab.t;
  g_evocab : Vocab.t
}.

Record t : Type := mk {
  fvocab : Vocab.t;
  evocab : Vocab.t;
  enc : Encoder.t;
  dec : Decoder.t
}.

(** [self.dec.step(fencs, h, enum)] as called from the two loops. *)
Definition call_step (self : t) (fencs : list vec) (h enum : nat)
    : traced (vec * nat) :=
  ([h], Decoder.step (dec self) fencs h enum).

(** Body of [for i in range(len(ewords))], on the words [ewords[i:]]
    still to be scored. *)
Fixpoint logprob_loop (g : globals) (self : t) (fencs : list vec)
    (ewords : list string) (h enum : nat) (logprob : scalar)
    : traced scalar :=
  match ewords with
  | [] => mret logprob
  | eword :: ewords' =>
      '(o, h') ← call_step self fencs h enum;
      enum' ← lift (Vocab.numberize (g_evocab g) eword);
      x ← lift (vec_get o enum');
      logprob_loop g self fencs ewords' h' enum' (scalar_add logprob x)
  end.

Definition logprob (g : globals) (self : t) (fwords ewords : list string)
    : traced scalar :=
  fnums ← lift (mapM (Vocab.numberize (g_fvocab g)) fwords);
  let fencs := Encoder.sequence (enc self) fnums in
  let h := Decoder.start (dec self) in
  enum ← lift (Vocab.numberize (g_evocab g) Vocab.BOS);
  logprob_loop g self fencs ewords h enum scalar_zero.

(** Body of [for i in range(100)] with [n] iterations left; returning
    [ewords] early is the [break]. *)
Fixpoint translate_loop (g : globals) (self : t) (fencs : list vec)
    (n : nat) (h enum : nat) (ewords : list nat) : traced (list nat) :=
  match n with
  | 0 => mret ewords
  | S n' =>
      '(o, h') ← call_step self fencs h enum;
      let enum' := argmax o in
      word ← lift (Vocab.denumberize (g_evocab g) enum');
      if decide (word = Vocab.EOS) then mret ewords
      else translate_loop g self fencs n' h' enum' (ewords ++ [enum'])
  end.

Definition translate (g : globals) (self : t) (fwords : list string)
    : traced (list string) :=
  fnums ← lift (mapM (Vocab.numberize (g_fvocab g)) fwords);
  let fencs := Encoder.sequence (enc self) fnums in
  let h := Decoder.start (dec self) in
  enum ← lift (Vocab.numberize (g_evocab g) Vocab.BOS);
  ewords ← translate_loop g self fencs 100 h enum [];
  lift (mapM (Vocab.denumberize (g_evocab g)) ewords).

(** The source encodings both methods compute first. *)
Definition encode (g : globals) (self : t) (fwords : list string)
    : option (list vec) :=
  Encoder.sequence (enc self) <$> mapM (Vocab.numberize (g_fvocab g)) fwords.

(** The word greedy search picks at position [i]. *)
Definition choice (g : globals) (self : t) (fencs : list vec) (i : nat)
    : option string :=
  '(o, _) ← Decoder.step (dec self) fencs i 0;
  Vocab.denumberize (g_evocab g) (argmax o).

(** The log-probability [o[enum]] that position [i] gives to [eword]. *)
Definition score (g : globals) (self : t) (fencs : list vec) (i : nat)
    (eword : string) : option scalar :=
  '(o, _) ← Decoder.step (dec self) fencs i 0;
  enum ← Vocab.numberize (g_evocab g) eword;
  vec_get o enum.

(** The log-probability position [i] gives to its own argmax. *)
Definition top_score (g : globals) (self : t) (fencs : list vec) (i : nat)
    : option scalar :=
  '(o, _) ← Decoder.step (dec self) fencs i 0;
  vec_get o (argmax o).
End WithLayers.
End Model.

(** ** read_data

    A Python [str] is the list of its code points.  The file object yields
    the lines; [read_data] is modelled from there. *)

Module ReadData.

Definition str : Type := list N.

(** The code points of an ASCII literal of the source. *)
Definition literal (s : string) : str :=
  Ascii.N_of_ascii <$> String.list_ascii_of_string s.

Definition tab : N := 9.
Definition space : N := 32.
Definition EOS : str := literal "<EOS>".

(** [c.isspace()] for one character: the code points Unicode classes as
    whitespace. *)
Definition isspace (c : N) : bool :=
  bool_decide (c ∈ [9; 10; 11; 12; 13; 28; 29; 30; 31; 32; 133; 160; 5760;
                    8232; 8233; 8239; 8287; 12288]%N)
  || ((8192 <=? c)%N && (c <=? 8202)%N).

(** [s.split(sep)] for a separator of one character; [cur] is the field
    being read.  Every occurrence of [sep] ends a field, empty or not. *)
Fixpoint split_sep_from (sep : N) (cur : str) (s : str) : list str :=
  match s with
  | [] => [cur]
  | c :: s' =>
      if decide (c = sep) then cur :: split_sep_from sep [] s'
      else split_sep_from sep (cur ++ [c]) s'
  end.

Definition split_sep (sep : N) (s : str) : list str := split_sep_from sep [] s.

(** [s.split()]: fields are separated by runs of whitespace, and there are
    no empty fields. *)
Fixpoint split_from (cur : str) (s : str) : list str :=
  match s with
  | [] => match cur with [] => [] | _ => [cur] end
  | c :: s' =>
      if isspace c then
        match cur with
        | [] => split_from [] s'
        | _ => cur :: split_from [] s'
        end
      else split_from (cur ++ [c]) s'
  end.

Definition split (s : str) : list str := split_from [] s.

(** [sep.join(words)]. *)
Fixpoint join (sep : str) (words : list str) : str :=
  match words with
  | [] => []
  | [w] => w
  | w :: words' => w ++ sep ++ join sep words'
  end.

(** The body of the loop; unpacking [fline, eline = ...] raises ValueError
    unless [split] returned exactly two fields. *)
Definition read_line (line : str) : option (list str * list str) :=
  match split_sep tab line with
  | [fline; eline] => Some (split fline ++ [EOS], split eline ++ [EOS])
  | _ => None
  end.

Definition read_data (lines : list str) : option (list (list str * list str)) :=
  mapM read_line lines.

(** A sentence as [read_data] returns it: words that are not empty and hold
    no whitespace, then the end token. *)
Definition word (w : str) : Prop :=
  w ≠ [] ∧ Forall (λ c, isspace c = false) w.

Definition sentence (ws : list str) : Prop :=
  ∃ ws', ws = ws' ++ [EOS] ∧ Forall word ws'.

End ReadData.

(** ** Main program: building the vocabularies *)

Module Main.

(** [fvocab = Vocab(); evocab = Vocab()] and the loop
    [for fwords, ewords in traindata: fvocab |= fwords; evocab |= ewords]. *)
Definition build_vocabs (forder eorder : list string)
    (traindata : list (list string * list string)) : Vocab.t * Vocab.t :=
  fold_left
    (λ vs pair, (Vocab.ior vs.1 pair.1, Vocab.ior vs.2 pair.2))
    traindata (Vocab.init forder, Vocab.init eorder).

End Main.

(** ** Main program: the epoch loop and checkpoint selection *)

Module Training.
Section WithLayers.
Context {L : Layers}.

(** A sentence pair as [read_data] returns it. *)
Definition pair : Type := list string * list string.

(** What the program holds besides the model objects and the data: the
    optimizer's moments and the random generator. *)
Variable aux : Type.

(** The module-level vocabularies [fvocab], [evocab]. *)
Variable g : Model.globals.

(** [devdata]; it is never changed. *)
Variable devdata : list pair.

(** [random.shuffle(traindata)]: reorders the list in place. *)
Variable shuffle : list pair -> aux -> list pair * aux.

(** [opt.zero_grad(); loss.backward(); opt.step()] for the pair just
    scored: overwrites the parameters of the live model. *)
Variable update : Model.t -> aux -> pair -> Model.t * aux.

(** [t.item()]: the Python float in a tensor. *)
Variable item : scalar -> spec_float.

(** [math.exp]; it raises OverflowError when the result is out of range. *)
Variable exp : spec_float -> option spec_float.

(** Python floats are binary64. *)
Definition fadd : spec_float -> spec_float -> spec_float := SFadd 53 1024.
Definition fsub : spec_float -> spec_float -> spec_float := SFsub 53 1024.
Definition fdiv : spec_float -> spec_float -> spec_float := SFdiv 53 1024.
Definition float_of_nat (n : nat) : spec_float :=
  binary_normalize 53 1024 (Z.of_nat n) 0 false.

(** Model objects live in a store and the variables [m] and
    [best_model] hold references into it; [best_model] and
    [best_dev_loss] start out unbound resp. [None]. *)
Record state : Type := mk {
  heap : gmap nat Model.t;
  m : nat;
  other : aux;
  traindata : list pair;
  best_model : option nat;
  best_dev_loss : option spec_float
}.

(** [copy.deepcopy(m)]: a new object with the same contents. *)
Definition deepcopy (h : gmap nat Model.t) (obj : Model.t)
    : gmap nat Model.t * nat :=
  let l := fresh (dom h) in (<[l := obj]> h, l).

(** [best_dev_loss is None or dev_loss < best_dev_loss]. *)
Definition improves (best : option spec_float) (dev_loss : spec_float)
    : bool :=
  match best with
  | None => true
  | Some b => SFltb dev_loss b
  end.

(** Body of [for fwords, ewords in tqdm(traindata)].  [logprob] may raise;
    for an empty target it returns the Python float [0.], which has no
    [backward]: AttributeError. *)
Definition train_step (acc : Model.t * aux * spec_float * nat) (p : pair)
    : option (Model.t * aux * spec_float * nat) :=
  let '(model, a, train_loss, train_ewords) := acc in
  lp ← result (Model.logprob g model p.1 p.2);
  if decide (p.2 = []) then None
  else
    let '(model', a') := update model a p in
    Some (model', a', fadd train_loss (SFopp (item lp)),
          train_ewords + length p.2).

Fixpoint train_pass (data : list pair)
    (acc : Model.t * aux * spec_float * nat)
    : option (Model.t * aux * spec_float * nat) :=
  match data with
  | [] => Some acc
  | p :: data' => acc' ← train_step acc p; train_pass data' acc'
  end.

(** Body of [for line_num, (fwords, ewords) in enumerate(devdata)].
    [logprob] and [translate] may raise; [.item()] of the Python float
    [logprob] returns for an empty target raises AttributeError. *)
Definition dev_step (model : Model.t) (acc : spec_float * nat)
    (line_num : nat) (p : pair) : option (spec_float * nat) :=
  let '(dev_loss, dev_ewords) := acc in
  lp ← result (Model.logprob g model p.1 p.2);
  if decide (p.2 = []) then None
  else
    let acc' := (fsub dev_loss (item lp), dev_ewords + length p.2) in
    if decide (line_num < 10) then
      _ ← result (Model.translate g model p.1); Some acc'
    else Some acc'.

Fixpoint dev_pass_from (model : Model.t) (line_num : nat) (data : list pair)
    (acc : spec_float * nat) : option (spec_float * nat) :=
  match data with
  | [] => Some acc
  | p :: data' =>
      acc' ← dev_step model acc line_num p;
      dev_pass_from model (S line_num) data' acc'
  end.

(** The pass over [devdata]: [dev_loss] and [dev_ewords]. *)
Definition dev_pass (model : Model.t) : option (spec_float * nat) :=
  dev_pass_from model 0 devdata (S754_zero false, 0).

(** The held-out loss of a model. *)
Definition dev_loss_of (model : Model.t) : option spec_float :=
  fst <$> dev_pass model.

(** The values formatted by the final [print] of an epoch:
    [math.exp(train_loss/train_ewords)] and
    [math.exp(dev_loss/dev_ewords)].  Dividing by a count of 0 raises
    ZeroDivisionError. *)
Definition report (train_loss : spec_float) (train_ewords : nat)
    (dev_loss : spec_float) (dev_ewords : nat) : option unit :=
  if decide (train_ewords = 0) then None
  else
    _ ← exp (fdiv train_loss (float_of_nat train_ewords));
    if decide (dev_ewords = 0) then None
    else
      _ ← exp (fdiv dev_loss (float_of_nat dev_ewords));
      Some tt.

(** One iteration of [for epoch in range(10)]; [None] when anything in
    it raises, which ends the program. *)
Definition epoch (st : state) : option state :=
  obj ← heap st !! m st;
  let '(data, a1) := shuffle (traindata st) (other st) in
  '(obj', a2, train_loss, train_ewords) ←
    train_pass data (obj, a1, S754_zero false, 0);
  let heap1 := <[m st := obj']> (heap st) in
  '(dev_loss, dev_ewords) ← dev_pass obj';
  let st' :=
    if improves (best_dev_loss st) dev_loss then
      let '(heap2, l) := deepcopy heap1 obj' in
      mk heap2 (m st) a2 data (Some l) (Some dev_loss)
    else
      mk heap1 (m st) a2 data (best_model st) (best_dev_loss st) in
  _ ← report train_loss train_ewords dev_loss dev_ewords;
  Some st'.

Fixpoint epochs (n : nat) (st : state) : option state :=
  match n with
  | 0 => Some st
  | S n' => st' ← epoch st; epochs n' st'
  end.

(** State on entry to the loop, [m = Model(fvocab, 64, evocab)]. *)
Definition initial (model : Model.t) (a : aux) (data : list pair) : state :=
  mk {[ 0 := model ]} 0 a data None None.

Definition main (model : Model.t) (a : aux) (data : list pair)
    : option state :=
  epochs 10 (initial model a data).

(** The live model as it stands after each of the first [n] epochs run
    from [st], with its held-out loss. *)
Fixpoint live_models (n : nat) (st : state) : list (Model.t * spec_float) :=
  match n with
  | 0 => []
  | S n' =>
      match epoch st with
      | Some st' =>
          match heap st' !! m st' with
          | Some obj =>
              match dev_loss_of obj with
              | Some d => (obj, d) :: live_models n' st'
              | None => []
              end
          | None => []
          end
      | None => []
      end
  end.

(** The held-out losses of the first [n] epochs run from [st]. *)
Definition dev_losses (n : nat) (st : state) : list spec_float :=
  (live_models n st).*2.

(** [best_model] is a separate object holding the model of epoch [k],
    whose held-out loss [b] is [best_dev_loss]; no epoch's loss is below
    [b], and [b] is below every earlier loss that is a number. *)
Definition selected (st : state) (objs : list (Model.t * spec_float))
    (l k : nat) (obj : Model.t) (b : spec_float) : Prop :=
  best_model st = Some l ∧ l ≠ m st ∧ heap st !! l = Some obj ∧
  best_dev_loss st = Some b ∧ dev_loss_of obj = Some b ∧
  objs !! k = Some (obj, b) ∧
  ∀ j o d, objs !! j = Some (o, d) ->
    SFltb d b = false ∧ (j < k -> d ≠ S754_nan -> SFltb b d = true).

(** What the loop maintains, in terms of the models seen so far. *)
Definition selection_inv (st : state) (objs : list (Model.t * spec_float))
    : Prop :=
  (objs = [] -> best_model st = None ∧ best_dev_loss st = None) ∧
  (objs ≠ [] -> ∃ l k obj b, selected st objs l k obj b).
End WithLayers.
End Training.

(** ** A small instance of the tensor interface, to run the definitions

    Vectors are integer lists; the softmax layer is the identity and
    attention returns its query, so position [i] scores the target words by
    row [i] of [epos]. *)

Module Toy.

Fixpoint argmax_from (best_i : nat) (best : Z) (i : nat) (l : list Z) : nat :=
  match l with
  | [] => best_i
  | x :: l' =>
      if (best <? x)%Z then argmax_from i x (S i) l'
      else argmax_from best_i best (S i) l'
  end.

Definition list_argmax (l : list Z) : nat :=
  match l with
  | [] => 0
  | x :: l' => argmax_from 0 x 1 l'
  end.

Definition layers : Layers := {|
  vec := list Z;
  scalar := Z;
  Embedding := unit;
  embedding_apply := fun _ ids => map (fun i => [Z.of_nat i]) ids;
  SoftmaxLayer := unit;
  softmax_apply := fun _ rows => rows;
  attention := fun q _ _ => q;
  argmax := list_argmax;
  vec_get := fun v i => v !! i;
  scalar_zero := 0%Z;
  scalar_add := Z.add
|}.

Definition one_hot (n k : nat) : list Z :=
  map (fun j => if decide (j = k) then 1%Z else 0%Z) (seq 0 n).

(** ids: the reserved words 0..2, then i = 3, like = 4, sand = 5. *)
Definition evocab : Vocab.t :=
  Vocab.add "sand" (Vocab.add "like" (Vocab.add "i" (Vocab.init Vocab.reserved))).

Definition fvocab : Vocab.t :=
  Vocab.add "b" (Vocab.add "a" (Vocab.init Vocab.reserved)).

Definition globals : Model.globals :=
  Model.mk_globals fvocab evocab.

(** Positions 0, 1, 2 prefer "i", "like", "sand"; later ones "<EOS>". *)
Definition decoder : Decoder.t (L := layers) :=
  Decoder.mk (L := layers)
    (fun j => [Z.of_nat j])
    (fun i => if decide (i < 3) then one_hot 6 (3 + i) else one_hot 6 1)
    tt.

Definition model : Model.t (L := layers) :=
  Model.mk fvocab evocab (Encoder.mk (L := layers) tt) decoder.

(** A decoder that never prefers "<EOS>". *)
Definition decoder_sand : Decoder.t (L := layers) :=
  Decoder.mk (L := layers) (fun j => [Z.of_nat j]) (fun _ => one_hot 6 5) tt.

Definition model_sand : Model.t (L := layers) :=
  Model.mk fvocab evocab (Encoder.mk (L := layers) tt) decoder_sand.

(** The same parameters as [model] under other vocabulary fields. *)
Definition model_other_vocab : Model.t (L := layers) :=
  Model.mk (Vocab.init Vocab.reserved) (Vocab.init [Vocab.UNK; Vocab.EOS; Vocab.BOS])
    (Encoder.mk (L := layers) tt) decoder.

(** A run of the epoch loop: one sentence pair for training and for
    validation, no shuffling, an update that lowers every position score
    by one, integers read as floats. *)
Definition data : list Training.pair := [(["a"; "<EOS>"], ["i"; "<EOS>"])].

Definition shuffle (d : list Training.pair) (u : unit)
    : list Training.pair * unit := (d, u).

Definition update (mo : Model.t (L := layers)) (u : unit) (p : Training.pair)
    : Model.t (L := layers) * unit :=
  let d := Model.dec mo in
  (Model.mk (Model.fvocab mo) (Model.evocab mo) (Model.enc mo)
     (Decoder.mk (L := layers) (Decoder.fpos d)
        (fun i => map Z.pred (Decoder.epos d i)) (Decoder.out d)), u).

Definition item (z : Z) : spec_float :=
  match z with
  | Z0 => S754_zero false
  | Zpos p => S754_finite false p 0
  | Zneg p => S754_finite true p 0
  end.

(** The same, with the score -1 read as NaN. *)
Definition item_nan (z : Z) : spec_float :=
  if decide (z = (-1)%Z) then S754_nan else item z.

Definition exp (x : spec_float) : option spec_float := Some x.

End Toy.

(** * Properties *)

(** ** Vocabulary *)

Section VocabFacts.
Import Vocab.

Implicit Types (v : Vocab.t) (word w : string) (num : nat).

Lemma contains_true v w : contains v w = true ↔ is_Some (word_to_num v !! w).
Proof. unfold contains. by rewrite bool_decide_eq_true. Qed.

Lemma contains_false v w : contains v w = false ↔ word_to_num v !! w = None.
Proof.
  unfold contains. rewrite bool_decide_eq_false. symmetry. apply eq_None_not_Some.
Qed.

(** Recording a new last word keeps the two tables in step. *)
Lemma insert_snoc_tables (l : list string) (d : gmap string nat) w :
  w ∉ l ->
  (∀ w' n, d !! w' = Some n ↔ l !! n = Some w') ->
  ∀ w' n, <[w := length l]> d !! w' = Some n ↔ (l ++ [w]) !! n = Some w'.
Proof.
  intros Hfresh Htab w' n. destruct (decide (w = w')) as [<-|Hne].
  - rewrite lookup_insert_eq. split.
    + intros [= <-]. by rewrite list_lookup_middle.
    + intros Hn. apply lookup_snoc_Some in Hn as [[Hlt Hn]|[-> _]]; [|done].
      exfalso. apply Hfresh. apply list_elem_of_lookup. eauto.
  - rewrite lookup_insert_ne by done. rewrite Htab. split.
    + intros Hn. rewrite lookup_app_l; [done|]. by eapply lookup_lt_Some.
    + intros Hn. apply lookup_snoc_Some in Hn as [[_ Hn]|[_ ?]]; done.
  Qed.

Lemma enumerate_dict_tables (l pre : list string) (d : gmap string nat) :
  NoDup (pre ++ l) ->
  (∀ w n, d !! w = Some n ↔ pre !! n = Some w) ->
  ∀ w n, enumerate_dict (length pre) l d !! w = Some n ↔ (pre ++ l) !! n = Some w.
Proof.
  revert pre d. induction l as [|x l IH]; intros pre d Hnd Htab w n; simpl.
  - by rewrite app_nil_r.
  - replace (pre ++ x :: l) with ((pre ++ [x]) ++ l) in * by by rewrite <-app_assoc.
    replace (S (length pre)) with (length (pre ++ [x]))
      by (rewrite length_app; simpl; lia).
    apply IH; [done|]. apply insert_snoc_tables; [|done].
    apply NoDup_app in Hnd as [Hnd _]. apply NoDup_app in Hnd as (_ & Hd & _).
    intros Hx. apply (Hd x Hx). by apply list_elem_of_singleton.
Qed.

Lemma consistent_init order : order ≡ₚ reserved -> consistent (init order).
Proof.
  intros Hp. assert (NoDup order) as Hnd.
  { rewrite Hp. by apply (bool_decide_unpack _). }
  split; [done|]. intros w n. simpl.
  apply (enumerate_dict_tables order [] ∅); [done|].
  intros w' n'. by rewrite lookup_empty.
Qed.

Lemma consistent_elem v w :
  consistent v -> w ∈ num_to_word v ↔ contains v w = true.
Proof.
  intros [_ Htab]. rewrite contains_true, list_elem_of_lookup. split.
  - intros [n Hn]. exists n. by apply Htab.
  - intros [n Hn]. exists n. by apply Htab.
Qed.

Lemma add_present v w : contains v w = true -> add w v = v.
Proof. intros H. unfold add. by rewrite H. Qed.

Lemma add_absent v w :
  contains v w = false ->
  add w v = mk (num_to_word v ++ [w]) (<[w := length (num_to_word v)]> (word_to_num v)).
Proof. intros H. unfold add. by rewrite H. Qed.

Lemma consistent_add v w : consistent v -> consistent (add w v).
Proof.
  intros Hc. destruct (contains v w) eqn:Hw; [by rewrite add_present|].
  rewrite add_absent by done. destruct Hc as [Hnd Htab].
  assert (w ∉ num_to_word v) as Hfresh.
  { rewrite (consistent_elem v w) by done. by rewrite Hw. }
  split; simpl.
  - apply NoDup_app. split_and!; [done| |apply NoDup_singleton].
    intros x Hx ->%list_elem_of_singleton. done.
  - by apply insert_snoc_tables.
Qed.

Lemma built_consistent v : built v -> consistent v.
Proof.
  induction 1; [by apply consistent_init|by apply consistent_add].
Qed.

Lemma elem_of_add v w x :
  consistent v -> x ∈ num_to_word (add w v) ↔ x = w ∨ x ∈ num_to_word v.
Proof.
  intros Hc. destruct (contains v w) eqn:Hw.
  - rewrite add_present by done. split; [by right|].
    intros [->|?]; [|done]. by apply consistent_elem.
  - rewrite add_absent by done. simpl.
    rewrite elem_of_app, list_elem_of_singleton. tauto.
Qed.

Lemma built_reserved v w : built v -> w ∈ reserved -> contains v w = true.
Proof.
  intros Hb Hw. apply consistent_elem; [by apply built_consistent|].
  induction Hb as [order Hp|v word Hb IH].
  - simpl. by rewrite Hp.
  - apply elem_of_add; [by apply built_consistent|]. by right.
Qed.

Lemma built_ior v words : built v -> built (ior v words).
Proof.
  revert v. induction words as [|w words IH]; intros v Hb; simpl; [done|].
  apply IH. by constructor.
Qed.

Lemma consistent_ior v words : consistent v -> consistent (ior v words).
Proof.
  revert v. induction words as [|w words IH]; intros v Hb; simpl; [done|].
  apply IH. by apply consistent_add.
Qed.

Lemma elem_of_ior v words x :
  consistent v -> x ∈ num_to_word (ior v words) ↔ x ∈ num_to_word v ∨ x ∈ words.
Proof.
  revert v. induction words as [|w words IH]; intros v Hc; simpl.
  - split; [by left|]. by intros [?|?%elem_of_nil].
  - rewrite IH by by apply consistent_add.
    rewrite elem_of_add, elem_of_cons by done. tauto.
Qed.

(** A word that has an id keeps it when another word is added. *)
Lemma lookup_add v w w' num :
  word_to_num v !! w' = Some num -> word_to_num (add w v) !! w' = Some num.
Proof.
  intros Hw'. destruct (contains v w) eqn:Hw; [by rewrite add_present|].
  rewrite add_absent by done. simpl. rewrite lookup_insert_ne; [done|].
  intros ->. apply contains_false in Hw. congruence.
Qed.

Lemma lookup_ior v words w num :
  word_to_num v !! w = Some num -> word_to_num (ior v words) !! w = Some num.
Proof.
  revert v. induction words as [|x words IH]; intros v Hw; simpl; [done|].
  apply IH. by apply lookup_add.
Qed.

Lemma numberize_present v w num :
  word_to_num v !! w = Some num -> numberize v w = Some num.
Proof. intros H. unfold numberize. by rewrite H. Qed.

Lemma numberize_is_Some v w : built v -> is_Some (numberize v w).
Proof.
  intros Hb.
  assert (is_Some (word_to_num v !! UNK)) as [unk Hunk].
  { apply contains_true, built_reserved; [done|].
    apply list_elem_of_In. simpl. auto. }
  unfold numberize. destruct (word_to_num v !! w); eauto.
Qed.

End VocabFacts.

(** C5. In a vocabulary grown by [add] from a fresh one, a word [w] that is
    contained has an id [num] with [denumberize (numberize w) = w]; since
    [numberize] reads the tables without changing them a repeated call
    gives [num] again, and it still does after any further words have been
    added. *)
Theorem numberize_denumberize_stable (v : Vocab.t) (w : string) :
  Vocab.built v ->
  Vocab.contains v w = true ->
  ∃ num,
    Vocab.numberize v w = Some num ∧
    Vocab.denumberize v num = Some w ∧
    ∀ words,
      Vocab.numberize (Vocab.ior v words) w = Some num ∧
      Vocab.denumberize (Vocab.ior v words) num = Some w.
Proof.
  intros Hb Hw. apply contains_true in Hw as [num Hnum]. exists num.
  assert (∀ v', Vocab.consistent v' -> Vocab.word_to_num v' !! w = Some num ->
    Vocab.numberize v' w = Some num ∧ Vocab.denumberize v' num = Some w) as Hrt.
  { intros v' [_ Htab] Hl. split; [by apply numberize_present|].
    unfold Vocab.denumberize. by apply Htab. }
  pose proof (built_consistent v Hb) as Hc.
  destruct (Hrt v Hc Hnum) as [Hn Hd]. split_and!; [done..|].
  intros words. apply Hrt; [by apply consistent_ior|by apply lookup_ior].
Qed.

Lemma numberize_denumberize_stable_witness :
  ∃ num,
    Vocab.numberize Toy.evocab "like" = Some num ∧
    Vocab.denumberize Toy.evocab num = Some "like" ∧
    ∀ words,
      Vocab.numberize (Vocab.ior Toy.evocab words) "like" = Some num ∧
      Vocab.denumberize (Vocab.ior Toy.evocab words) num = Some "like".
Proof.
  apply (numberize_denumberize_stable Toy.evocab "like").
  - unfold Toy.evocab. repeat apply Vocab.built_add.
    apply Vocab.built_init. reflexivity.
  - reflexivity.
Defined.

(** C6. [numberize] never fails on a vocabulary grown by [add] from a fresh
    one: the table assigns ['<UNK>'] an id [unk], which [denumberize] maps
    back to ['<UNK>']; [numberize] returns the id the table assigns to a
    word that has one, and exactly [unk] for a word that is not contained,
    which is also what it returns for ['<UNK>'] itself. *)
Theorem numberize_total (v : Vocab.t) (w : string) :
  Vocab.built v ->
  ∃ unk,
    Vocab.word_to_num v !! "<UNK>" = Some unk ∧
    Vocab.denumberize v unk = Some "<UNK>" ∧
    Vocab.numberize v "<UNK>" = Some unk ∧
    is_Some (Vocab.numberize v w) ∧
    (∀ num, Vocab.word_to_num v !! w = Some num ->
       Vocab.numberize v w = Some num) ∧
    (Vocab.contains v w = false ->
     Vocab.numberize v w = Some unk ∧
     Vocab.numberize v w = Vocab.numberize v "<UNK>").
Proof.
  intros Hb.
  assert (is_Some (Vocab.word_to_num v !! Vocab.UNK)) as [unk Hunk].
  { apply contains_true, built_reserved; [done|].
    apply list_elem_of_In. simpl. auto. }
  assert (Vocab.numberize v "<UNK>" = Some unk) as Hnu
    by by apply numberize_present.
  exists unk. split_and!.
  - exact Hunk.
  - destruct (built_consistent v Hb) as [_ Htab]. by apply Htab.
  - exact Hnu.
  - unfold Vocab.numberize. destruct (Vocab.word_to_num v !! w); eauto.
  - intros num Hnum. by apply numberize_present.
  - intros Hw%contains_false. rewrite Hnu. unfold Vocab.numberize.
    by rewrite Hw.
Qed.

Lemma numberize_total_witness :
  Vocab.word_to_num Toy.evocab !! "<UNK>" = Some 2 ∧
  Vocab.denumberize Toy.evocab 2 = Some "<UNK>" ∧
  Vocab.numberize Toy.evocab "<UNK>" = Some 2 ∧
  is_Some (Vocab.numberize Toy.evocab "dune") ∧
  Vocab.numberize Toy.evocab "dune" = Some 2.
Proof.
  destruct (numberize_total Toy.evocab "dune")
    as (unk & Htab & Hden & Hunk & Htotal & _ & Habsent).
  - unfold Toy.evocab. repeat apply Vocab.built_add.
    apply Vocab.built_init. reflexivity.
  - assert (unk = 2) as ->.
    { vm_compute in Htab. injection Htab as <-. reflexivity. }
    split; [exact Htab|]. split; [exact Hden|]. split; [exact Hunk|].
    split; [exact Htotal|]. apply Habsent. reflexivity.
Defined.

(** C7. [add] of a contained word changes nothing; [add] of a new word
    appends it with the previous size as its id, and every word that had an
    id keeps it, no earlier word gets the new id, and every earlier id
    still denotes its word.  Adding the same word twice is adding it
    once. *)
Theorem add_idempotent_append_only (v : Vocab.t) (w : string) :
  Vocab.built v ->
  Vocab.add w (Vocab.add w v) = Vocab.add w v ∧
  (Vocab.contains v w = true -> Vocab.add w v = v) ∧
  (Vocab.contains v w = false ->
   Vocab.num_to_word (Vocab.add w v) = Vocab.num_to_word v ++ [w] ∧
   Vocab.len (Vocab.add w v) = S (Vocab.len v) ∧
   Vocab.numberize (Vocab.add w v) w = Some (Vocab.len v) ∧
   Vocab.denumberize (Vocab.add w v) (Vocab.len v) = Some w ∧
   (∀ w', Vocab.contains v w' = true ->
      Vocab.numberize (Vocab.add w v) w' = Vocab.numberize v w' ∧
      Vocab.numberize (Vocab.add w v) w' ≠ Some (Vocab.len v)) ∧
   (∀ num, num < Vocab.len v ->
      Vocab.denumberize (Vocab.add w v) num = Vocab.denumberize v num)).
Proof.
  intros Hb. pose proof (built_consistent v Hb) as Hc. split_and!.
  - apply add_present. apply consistent_elem; [by apply consistent_add|].
    apply elem_of_add; auto.
  - apply add_present.
  - intros Hw. rewrite (add_absent v w Hw). unfold Vocab.len, Vocab.denumberize.
    simpl. split_and!.
    + done.
    + rewrite length_app. simpl. lia.
    + apply numberize_present. simpl. by rewrite lookup_insert_eq.
    + by rewrite list_lookup_middle.
    + intros w' [num Hnum]%contains_true.
      assert (w ≠ w') as Hne.
      { intros ->. apply contains_false in Hw. congruence. }
      assert (Vocab.numberize
        (Vocab.mk (Vocab.num_to_word v ++ [w])
           (<[w := length (Vocab.num_to_word v)]> (Vocab.word_to_num v))) w'
        = Some num) as ->.
      { apply numberize_present. simpl. by rewrite lookup_insert_ne. }
      split; [symmetry; by apply numberize_present|].
      intros [= ->]. destruct Hc as [_ Htab]. apply Htab in Hnum.
      apply lookup_lt_Some in Hnum. lia.
    + intros num Hlt. by rewrite lookup_app_l.
Qed.

Lemma add_idempotent_append_only_witness :
  let v := Vocab.add "i" (Vocab.init Vocab.reserved) in
  let w := "like" in
  Vocab.add w (Vocab.add w v) = Vocab.add w v ∧
  (Vocab.contains v w = true -> Vocab.add w v = v) ∧
  Vocab.num_to_word (Vocab.add w v) = Vocab.num_to_word v ++ [w] ∧
  Vocab.len (Vocab.add w v) = S (Vocab.len v) ∧
  Vocab.numberize (Vocab.add w v) w = Some (Vocab.len v) ∧
  Vocab.denumberize (Vocab.add w v) (Vocab.len v) = Some w ∧
  (∀ w', Vocab.contains v w' = true ->
     Vocab.numberize (Vocab.add w v) w' = Vocab.numberize v w' ∧
     Vocab.numberize (Vocab.add w v) w' ≠ Some (Vocab.len v)) ∧
  (∀ num, num < Vocab.len v ->
     Vocab.denumberize (Vocab.add w v) num = Vocab.denumberize v num).
Proof.
  intros v w.
  destruct (add_idempotent_append_only v w) as (Hidem & Hold & Hnew).
  - apply Vocab.built_add, Vocab.built_init. reflexivity.
  - split; [exact Hidem|]. split; [exact Hold|]. apply Hnew. reflexivity.
Defined.

(** The words of a fresh vocabulary after [|=], up to order: the reserved
    ones and, once each, the added words that are not reserved. *)
Lemma ior_init_words (order words : list string) :
  order ≡ₚ Vocab.reserved ->
  Vocab.num_to_word (Vocab.ior (Vocab.init order) words)
  ≡ₚ Vocab.reserved ++ remove_dups (filter (λ w, w ∉ Vocab.reserved) words).
Proof.
  intros Hp. pose proof (consistent_init order Hp) as Hc.
  apply NoDup_Permutation.
  - by apply consistent_ior.
  - apply NoDup_app. split_and!.
    + rewrite <-Hp. apply Hc.
    + intros x Hx [Hx' _]%elem_of_remove_dups%list_elem_of_filter. done.
    + apply NoDup_remove_dups.
  - intros x. rewrite elem_of_ior by done.
    change (Vocab.num_to_word (Vocab.init order)) with order. rewrite Hp.
    rewrite elem_of_app, elem_of_remove_dups, list_elem_of_filter.
    destruct (decide (x ∈ Vocab.reserved)); tauto.
Qed.

(** C8, as the code has it.  After any words are added to a fresh
    vocabulary its size is 3 plus the number of distinct added words that
    are not one of the reserved tokens ['<BOS>'], ['<EOS>'], ['<UNK>']. *)
Theorem len_ior_init (order words : list string) :
  order ≡ₚ Vocab.reserved ->
  Vocab.len (Vocab.ior (Vocab.init order) words)
  = 3 + length (remove_dups (filter (λ w, w ∉ Vocab.reserved) words)).
Proof.
  intros Hp. unfold Vocab.len. rewrite (ior_init_words order words Hp).
  by rewrite length_app.
Qed.

Lemma len_ior_init_witness :
  Vocab.len (Vocab.ior (Vocab.init ["<UNK>"; "<BOS>"; "<EOS>"])
               ["i"; "like"; "i"; "<EOS>"])
  = 3 + length (remove_dups
                  (filter (λ w, w ∉ Vocab.reserved) ["i"; "like"; "i"; "<EOS>"])).
Proof.
  apply (len_ior_init ["<UNK>"; "<BOS>"; "<EOS>"] ["i"; "like"; "i"; "<EOS>"]).
  apply (Permutation_cons_append [Vocab.BOS; Vocab.EOS] Vocab.UNK).
Defined.

(** C8 as stated fails once a reserved token is among the added words, as
    it is for every sentence [read_data] returns: two distinct words are
    added here and the size is 4, not 5. *)
Lemma len_ior_init_counterexample :
  ¬ (∀ order words : list string,
       order ≡ₚ Vocab.reserved ->
       Vocab.len (Vocab.ior (Vocab.init order) words)
       = 3 + length (remove_dups words)).
Proof.
  intros H. specialize (H Vocab.reserved ["sand"; "<EOS>"] (reflexivity _)).
  vm_compute in H. discriminate H.
Qed.

(** ** Decoder *)

Section DecoderFacts.
Context {L : Layers}.

Implicit Types (d : Decoder.t) (fencs : list vec) (i state enum : nat).

Lemma step_Some d fencs i enum :
  i < Decoder.maxlen ->
  Decoder.step d fencs i enum
  = Some (attention (Decoder.epos d i)
            (Decoder.table_prefix (Decoder.fpos d) (length fencs))
            (softmax_apply (Decoder.out d) fencs), i + 1).
Proof.
  intros Hi. unfold Decoder.step, Decoder.table_get.
  by rewrite decide_True.
Qed.

Lemma step_None d fencs i enum :
  Decoder.maxlen ≤ i -> Decoder.step d fencs i enum = None.
Proof.
  intros Hi. unfold Decoder.step, Decoder.table_get.
  rewrite decide_False; [done|lia].
Qed.

Lemma step_inv d fencs i enum o h :
  Decoder.step d fencs i enum = Some (o, h) -> i < Decoder.maxlen ∧ h = i + 1.
Proof.
  destruct (decide (i < Decoder.maxlen)) as [Hi|Hi].
  - rewrite step_Some by done. intros [= _ <-]. done.
  - rewrite step_None by lia. done.
Qed.

Lemma step_any_enum d fencs i enum enum' :
  Decoder.step d fencs i enum = Decoder.step d fencs i enum'.
Proof. reflexivity. Qed.

End DecoderFacts.

(** C2. [step] applied to two previous-word ids, everything else equal,
    gives the same outcome: the same log-probability vector and new state,
    or the same failure. *)
Theorem step_ignores_enum {L : Layers} (d : Decoder.t) (fencs : list vec)
    (i enum1 enum2 : nat) :
  Decoder.step d fencs i enum1 = Decoder.step d fencs i enum2.
Proof.
  destruct (decide (i < Decoder.maxlen)) as [Hi|Hi].
  - by rewrite !step_Some.
  - rewrite !step_None by lia. done.
Qed.

(** C4. [start] returns 0.  At every state [i] of the decoder, that is
    [i < maxlen], [step] returns the new state [i + 1] whatever the
    encodings and the previous word are; and a call that returns at all
    returns [i + 1]. *)
Theorem start_zero_step_succ {L : Layers} (d : Decoder.t) (fencs : list vec)
    (i enum : nat) :
  Decoder.start d = 0 ∧
  (i < Decoder.maxlen ->
   ∃ o, Decoder.step d fencs i enum = Some (o, i + 1)) ∧
  (∀ o h, Decoder.step d fencs i enum = Some (o, h) -> h = i + 1).
Proof.
  split_and!.
  - reflexivity.
  - intros Hi. rewrite step_Some by done. eauto.
  - intros o h Hs. by apply step_inv in Hs as [_ ->].
Qed.

Lemma start_zero_step_succ_witness :
  Decoder.start Toy.decoder = 0 ∧
  (∃ o, Decoder.step Toy.decoder [[7%Z]] 99 4 = Some (o, 99 + 1)) ∧
  (∀ o h, Decoder.step Toy.decoder [[7%Z]] 99 4 = Some (o, h) -> h = 99 + 1).
Proof.
  destruct (start_zero_step_succ (L := Toy.layers) Toy.decoder [[7%Z]] 99 4)
    as (H0 & Hstep & Hret).
  split_and!; [exact H0| |exact Hret].
  apply Hstep. unfold Decoder.maxlen. lia.
Defined.

(** ** Model: the scoring and translation loops *)

Section ModelFacts.
Context {L : Layers}.

Implicit Types (g : Model.globals) (self : Model.t) (fencs : list vec).
Implicit Types (h enum n : nat) (ewords : list nat).

Lemma bind_lift {A B : Type} (o : option A) (f : A -> traced B) :
  lift o ≫= f = match o with Some a => f a | None => ([], None) end.
Proof. destruct o as [a|]; [|done]. simpl. by destruct (f a). Qed.

Lemma bind_call_step {B : Type} self fencs h enum (f : vec * nat -> traced B) :
  Model.call_step self fencs h enum ≫= f
  = match Decoder.step (Model.dec self) fencs h enum with
    | Some x => (h :: calls (f x), result (f x))
    | None => ([h], None)
    end.
Proof.
  unfold Model.call_step. simpl.
  destruct (Decoder.step _ _ _ _) as [x|]; [|done]. by destruct (f x).
Qed.

Lemma calls_bind_lift {A B : Type} (o : option A) (f : A -> traced B) tr r :
  lift o ≫= f = (tr, r) ->
  (∃ a, o = Some a ∧ f a = (tr, r)) ∨ (o = None ∧ tr = [] ∧ r = None).
Proof.
  rewrite bind_lift. destruct o as [a|]; [eauto|].
  intros [= <- <-]. by right.
Qed.

(** One pass through the body of the translation loop. *)
Lemma translate_loop_S g self fencs n h enum ewords :
  Model.translate_loop g self fencs (S n) h enum ewords
  = match Decoder.step (Model.dec self) fencs h enum with
    | None => ([h], None)
    | Some (o, h') =>
        match Vocab.denumberize (Model.g_evocab g) (argmax o) with
        | None => ([h], None)
        | Some word =>
            if decide (word = Vocab.EOS) then ([h], Some ewords)
            else
              let r := Model.translate_loop g self fencs n h' (argmax o)
                         (ewords ++ [argmax o]) in
              (h :: calls r, result r)
        end
    end.
Proof.
  cbn [Model.translate_loop]. rewrite bind_call_step.
  destruct (Decoder.step _ _ _ _) as [[o h']|]; [|done].
  rewrite bind_lift.
  destruct (Vocab.denumberize _ _) as [word|]; [|done].
  by destruct (decide (word = Vocab.EOS)).
Qed.

Lemma logprob_loop_cons g self fencs eword (ewords : list string) h enum acc :
  Model.logprob_loop g self fencs (eword :: ewords) h enum acc
  = match Decoder.step (Model.dec self) fencs h enum with
    | None => ([h], None)
    | Some (o, h') =>
        match Vocab.numberize (Model.g_evocab g) eword with
        | None => ([h], None)
        | Some enum' =>
            match vec_get o enum' with
            | None => ([h], None)
            | Some x =>
                let r := Model.logprob_loop g self fencs ewords h' enum'
                           (scalar_add acc x) in
                (h :: calls r, result r)
            end
        end
    end.
Proof.
  cbn [Model.logprob_loop]. rewrite bind_call_step.
  destruct (Decoder.step _ _ _ _) as [[o h']|]; [|done].
  rewrite bind_lift.
  destruct (Vocab.numberize _ _) as [enum'|]; [|done].
  rewrite bind_lift. by destruct (vec_get o enum').
Qed.

(** The positions the translation loop passes to [step] are consecutive,
    starting at the state it is entered with. *)
Lemma translate_loop_calls g self fencs n h enum ewords :
  ∃ k, k ≤ n ∧
    calls (Model.translate_loop g self fencs n h enum ewords) = seq h k.
Proof.
  revert h enum ewords. induction n as [|n IH]; intros h enum ewords.
  - exists 0. done.
  - rewrite translate_loop_S.
    destruct (Decoder.step _ _ _ _) as [[o h']|] eqn:Hs;
      [|exists 1; split; [lia|done]].
    apply step_inv in Hs as [_ ->].
    destruct (Vocab.denumberize _ _) as [word|];
      [|exists 1; split; [lia|done]].
    destruct (decide (word = Vocab.EOS)); [exists 1; split; [lia|done]|].
    destruct (IH (h + 1) (argmax o) (ewords ++ [argmax o])) as (k & Hk & Hc).
    exists (S k). split; [lia|]. cbn [calls fst]. simpl in Hc. rewrite Hc.
    simpl. by rewrite Nat.add_1_r.
Qed.

(** The positions the scoring loop passes to [step]: consecutive, one per
    target word when the loop completes. *)
Lemma logprob_loop_calls g self fencs (ewords : list string) h enum acc :
  ∃ k, k ≤ length ewords ∧
    calls (Model.logprob_loop g self fencs ewords h enum acc) = seq h k ∧
    (is_Some (result (Model.logprob_loop g self fencs ewords h enum acc)) ->
     k = length ewords).
Proof.
  revert h enum acc. induction ewords as [|eword ewords IH]; intros h enum acc.
  - exists 0. done.
  - rewrite logprob_loop_cons.
    destruct (Decoder.step _ _ _ _) as [[o h']|] eqn:Hs;
      [|exists 1; split_and!; [simpl; lia|done|by intros []]].
    apply step_inv in Hs as [_ ->].
    destruct (Vocab.numberize _ _) as [enum'|];
      [|exists 1; split_and!; [simpl; lia|done|by intros []]].
    destruct (vec_get o enum') as [x|];
      [|exists 1; split_and!; [simpl; lia|done|by intros []]].
    destruct (IH (h + 1) enum' (scalar_add acc x)) as (k & Hk & Hc & Hr).
    exists (S k). split_and!.
    + simpl. lia.
    + cbn [calls fst]. simpl in Hc. rewrite Hc. simpl. by rewrite Nat.add_1_r.
    + intros Hsome. simpl. f_equal. apply Hr. exact Hsome.
Qed.

Lemma translate_unfold g self fwords :
  Model.translate g self fwords
  = match Model.encode g self fwords with
    | None => ([], None)
    | Some fencs =>
        match Vocab.numberize (Model.g_evocab g) Vocab.BOS with
        | None => ([], None)
        | Some enum =>
            let r := Model.translate_loop g self fencs 100 0 enum [] in
            (calls r, result r ≫= mapM (Vocab.denumberize (Model.g_evocab g)))
        end
    end.
Proof.
  unfold Model.translate, Model.encode. rewrite bind_lift.
  destruct (mapM _ fwords) as [fnums|]; [|done]. cbn [fmap option_fmap option_map].
  rewrite bind_lift. destruct (Vocab.numberize _ _) as [enum|]; [|done].
  unfold Decoder.start.
  destruct (Model.translate_loop _ _ _ _ _ _ _) as [tr [ews|]]; [|done].
  simpl. by rewrite app_nil_r.
Qed.

Lemma logprob_unfold g self fwords (ewords : list string) :
  Model.logprob g self fwords ewords
  = match Model.encode g self fwords with
    | None => ([], None)
    | Some fencs =>
        match Vocab.numberize (Model.g_evocab g) Vocab.BOS with
        | None => ([], None)
        | Some enum => Model.logprob_loop g self fencs ewords 0 enum scalar_zero
        end
    end.
Proof.
  unfold Model.logprob, Model.encode. rewrite bind_lift.
  destruct (mapM _ fwords) as [fnums|]; [|done]. cbn [fmap option_fmap option_map].
  rewrite bind_lift. by destruct (Vocab.numberize _ _) as [enum|].
Qed.

Lemma choice_step g self fencs i enum o h' :
  Decoder.step (Model.dec self) fencs i enum = Some (o, h') ->
  Model.choice g self fencs i = Vocab.denumberize (Model.g_evocab g) (argmax o).
Proof.
  intros Hs. unfold Model.choice.
  rewrite (step_any_enum _ _ _ 0 enum), Hs. done.
Qed.

(** What the translation loop returns: the ids appended are those of the
    words chosen at the positions from [h] on, none of them the end token,
    and the loop ends with its last iteration or at a position whose
    choice is the end token. *)
Lemma translate_loop_result g self fencs n h enum ewords ws :
  result (Model.translate_loop g self fencs n h enum ewords) = Some ws ->
  ∃ new words,
    ws = ewords ++ new ∧
    Forall2 (λ e w, Vocab.denumberize (Model.g_evocab g) e = Some w) new words ∧
    length words ≤ n ∧
    (∀ j w, words !! j = Some w ->
       Model.choice g self fencs (h + j) = Some w ∧ w ≠ Vocab.EOS) ∧
    (length words = n ∨
     Model.choice g self fencs (h + length words) = Some Vocab.EOS).
Proof.
  revert h enum ewords. induction n as [|n IH]; intros h enum ewords.
  - intros [= <-]. exists [], []. rewrite app_nil_r.
    split_and!; [done|constructor|done| |by left]. intros j w. done.
  - rewrite translate_loop_S.
    destruct (Decoder.step _ _ _ _) as [[o h']|] eqn:Hs; [|done].
    pose proof (choice_step g _ _ _ _ _ _ Hs) as Hch.
    apply step_inv in Hs as [_ ->].
    destruct (Vocab.denumberize _ _) as [word|] eqn:Hw; [|done].
    destruct (decide (word = Vocab.EOS)) as [->|Hne].
    + intros [= <-]. exists [], []. rewrite app_nil_r.
      split_and!; [done|constructor|simpl; lia| |].
      * intros j w. done.
      * right. simpl. by rewrite Nat.add_0_r.
    + intros Hr. apply IH in Hr as (new & words & -> & Hf & Hlen & Hpos & Hend).
      exists (argmax o :: new), (word :: words). split_and!.
      * by rewrite <-app_assoc.
      * by constructor.
      * simpl. lia.
      * intros [|j] w; simpl.
        -- intros [= <-]. by rewrite Nat.add_0_r.
        -- intros Hj. replace (h + S j) with (h + 1 + j) by lia. by apply Hpos.
      * destruct Hend as [Hend|Hend]; [left; simpl; lia|right].
        simpl. by replace (h + S (length words)) with (h + 1 + length words) by lia.
Qed.

Lemma translate_loop_total g self fencs n h enum ewords :
  (∀ j, j < n -> is_Some (Model.choice g self fencs (h + j))) ->
  is_Some (result (Model.translate_loop g self fencs n h enum ewords)).
Proof.
  revert h enum ewords. induction n as [|n IH]; intros h enum ewords Hch.
  - by eexists.
  - rewrite translate_loop_S.
    destruct (Hch 0 ltac:(lia)) as [w Hw]. rewrite Nat.add_0_r in Hw.
    destruct (Decoder.step _ _ _ _) as [[o h']|] eqn:Hs.
    + rewrite (choice_step g _ _ _ _ _ _ Hs) in Hw. rewrite Hw.
      apply step_inv in Hs as [_ ->].
      destruct (decide (w = Vocab.EOS)); [by eexists|].
      apply IH. intros j Hj. replace (h + 1 + j) with (h + S j) by lia.
      apply Hch. lia.
    + unfold Model.choice in Hw.
      rewrite (step_any_enum _ _ _ 0 enum), Hs in Hw. done.
Qed.

(** Every position [translate] passes to [step] is below [maxlen]. *)
Lemma translate_calls_in_range g self fwords :
  Forall (λ state, state < Decoder.maxlen) (calls (Model.translate g self fwords)).
Proof.
  rewrite translate_unfold.
  destruct (Model.encode _ _ _) as [fencs|]; [|by constructor].
  destruct (Vocab.numberize _ _) as [enum|]; [|by constructor].
  destruct (translate_loop_calls g self fencs 100 0 enum []) as (k & Hk & Hc).
  cbn zeta. unfold calls at 1. cbn [fst]. rewrite Hc. apply Forall_forall.
  intros i Hi%list_elem_of_In%in_seq. unfold Decoder.maxlen. lia.
Qed.

Lemma logprob_loop_bound g self fencs (ewords : list string) h enum acc :
  h ≤ Decoder.maxlen ->
  is_Some (result (Model.logprob_loop g self fencs ewords h enum acc)) ->
  h + length ewords ≤ Decoder.maxlen.
Proof.
  revert h enum acc. induction ewords as [|eword ewords IH]; intros h enum acc Hh.
  - simpl. lia.
  - rewrite logprob_loop_cons.
    destruct (Decoder.step _ _ _ _) as [[o h']|] eqn:Hs; [|by intros []].
    apply step_inv in Hs as [Hlt ->].
    destruct (Vocab.numberize _ _) as [enum'|]; [|by intros []].
    destruct (vec_get o enum') as [x|]; [|by intros []].
    intros Hsome. apply IH in Hsome; [simpl; lia|lia].
Qed.

(** [logprob] passes the positions [0, 1, ...] to [step], one per target
    word until something raises; it cannot complete when the target
    sentence has more than [maxlen] words. *)
Lemma logprob_calls g self fwords (ewords : list string) :
  ∃ k, k ≤ length ewords ∧
    calls (Model.logprob g self fwords ewords) = seq 0 k ∧
    (is_Some (result (Model.logprob g self fwords ewords)) ->
     k = length ewords ∧ length ewords ≤ Decoder.maxlen).
Proof.
  rewrite logprob_unfold.
  destruct (Model.encode _ _ _) as [fencs|];
    [|exists 0; split_and!; [lia|done|by intros []]].
  destruct (Vocab.numberize _ _) as [enum|];
    [|exists 0; split_and!; [lia|done|by intros []]].
  destruct (logprob_loop_calls g self fencs ewords 0 enum scalar_zero)
    as (k & Hk & Hc & Hr).
  exists k. split_and!; [done..|]. intros Hsome. split; [by apply Hr|].
  apply logprob_loop_bound in Hsome; [lia|unfold Decoder.maxlen; lia].
Qed.

End ModelFacts.

(** A target sentence of at most [maxlen] words keeps the positions
    [logprob] passes to [step] below [maxlen]. *)
Lemma logprob_calls_in_range {L : Layers} (g : Model.globals) (self : Model.t)
    (fwords ewords : list string) :
  length ewords ≤ Decoder.maxlen ->
  Forall (λ state, state < Decoder.maxlen) (calls (Model.logprob g self fwords ewords)).
Proof.
  intros Hlen. destruct (logprob_calls g self fwords ewords) as (k & Hk & -> & _).
  apply Forall_forall. intros i Hi%list_elem_of_In%in_seq. lia.
Qed.

(** C1 at a target sentence of 101 words.  [translate] stays below
    [maxlen] ([translate_calls_in_range]), and so does [logprob] up to 100
    target words ([logprob_calls_in_range]); on the 101st word [logprob]
    calls [step] with state 100 and the lookup [epos[100]] raises. *)
Theorem logprob_position_overflow :
  let r := Model.logprob Toy.globals Toy.model ["a"; "<EOS>"]
             (replicate 100 "sand" ++ ["<EOS>"]) in
  calls r = seq 0 101 ∧
  result r = None ∧
  ¬ Forall (λ state, state < Decoder.maxlen) (calls r).
Proof.
  assert (calls (Model.logprob Toy.globals Toy.model ["a"; "<EOS>"]
             (replicate 100 "sand" ++ ["<EOS>"])) = seq 0 101) as Hc
    by (vm_compute; reflexivity).
  cbn zeta. split_and!.
  - exact Hc.
  - vm_compute. reflexivity.
  - rewrite Hc. intros Hall. rewrite Forall_forall in Hall.
    specialize (Hall 100). unfold Decoder.maxlen in Hall.
    assert (100 < 100) by (apply Hall, list_elem_of_In, in_seq; lia). lia.
Qed.

(** C3. Whenever [translate] returns, the list has at most 100 words and
    none is ['<EOS>']: its words are the greedy choices at the positions
    [0, 1, ...], and it ends after 100 of them or right before the first
    position whose choice is ['<EOS>'].  It does return when the global
    vocabularies were grown by [add] from fresh ones and every position's
    argmax is an id of the target vocabulary. *)
Theorem translate_bounded_no_eos {L : Layers} (g : Model.globals)
    (self : Model.t) (fwords : list string) :
  (∀ ws, result (Model.translate g self fwords) = Some ws ->
     length ws ≤ 100 ∧
     (Vocab.EOS ∉ ws) ∧
     ∃ fencs, Model.encode g self fwords = Some fencs ∧
       (∀ j w, ws !! j = Some w -> Model.choice g self fencs j = Some w) ∧
       (length ws = 100 ∨
        Model.choice g self fencs (length ws) = Some Vocab.EOS)) ∧
  (Vocab.built (Model.g_fvocab g) ->
   Vocab.built (Model.g_evocab g) ->
   (∀ fencs i, Model.encode g self fwords = Some fencs ->
      i < Decoder.maxlen -> is_Some (Model.choice g self fencs i)) ->
   is_Some (result (Model.translate g self fwords))).
Proof.
  rewrite translate_unfold. split.
  - intros ws. destruct (Model.encode _ _ _) as [fencs|]; [|done].
    destruct (Vocab.numberize _ _) as [enum|]; [|done].
    cbn zeta. unfold result at 1. cbn [snd].
    destruct (result (Model.translate_loop _ _ _ _ _ _ _)) as [ews|] eqn:Hr;
      [|done].
    apply translate_loop_result in Hr as (new & words & -> & Hf & Hlen & Hpos & Hend).
    simpl. rewrite (mapM_Some_2 _ _ _ Hf). intros [= <-]. split_and!.
    + done.
    + intros [j Hj]%list_elem_of_lookup. by apply Hpos in Hj as [_ ?].
    + exists fencs. split_and!; [done| |done].
      intros j w Hj. by apply Hpos in Hj as [? _].
  - intros Hbf Hbe Hch.
    assert (is_Some (Model.encode g self fwords)) as [fencs Hfe].
    { unfold Model.encode. apply fmap_is_Some, mapM_is_Some_2, Forall_forall.
      intros w _. by apply numberize_is_Some. }
    rewrite Hfe.
    destruct (numberize_is_Some (Model.g_evocab g) Vocab.BOS Hbe) as [enum ->].
    cbn zeta. unfold result at 1. cbn [snd].
    destruct (translate_loop_total g self fencs 100 0 enum []) as [ews Hr].
    { intros j Hj. apply Hch; [done|]. unfold Decoder.maxlen. simpl. lia. }
    rewrite Hr.
    apply translate_loop_result in Hr as (new & words & -> & Hf & _).
    simpl. rewrite (mapM_Some_2 _ _ _ Hf). by eexists.
Qed.

Lemma translate_bounded_no_eos_witness :
  let r := Model.translate Toy.globals Toy.model ["a"; "<EOS>"] in
  (∀ ws, result r = Some ws ->
     length ws ≤ 100 ∧
     (Vocab.EOS ∉ ws) ∧
     ∃ fencs, Model.encode Toy.globals Toy.model ["a"; "<EOS>"] = Some fencs ∧
       (∀ j w, ws !! j = Some w ->
          Model.choice Toy.globals Toy.model fencs j = Some w) ∧
       (length ws = 100 ∨
        Model.choice Toy.globals Toy.model fencs (length ws) = Some Vocab.EOS)) ∧
  is_Some (result r).
Proof.
  destruct (translate_bounded_no_eos (L := Toy.layers) Toy.globals Toy.model
              ["a"; "<EOS>"]) as [Hret Htotal].
  split; [exact Hret|]. apply Htotal.
  - unfold Toy.globals, Toy.fvocab. simpl. repeat apply Vocab.built_add.
    apply Vocab.built_init. reflexivity.
  - unfold Toy.globals, Toy.evocab. simpl. repeat apply Vocab.built_add.
    apply Vocab.built_init. reflexivity.
  - intros fencs i Hfencs Hi. vm_compute in Hfencs.
    injection Hfencs as Hfencs. subst fencs. unfold Decoder.maxlen in Hi.
    do 100 (destruct i as [|i]; [vm_compute; eexists; reflexivity|]). lia.
Defined.

(** C10. [logprob] and [translate] look words up in the module-level
    vocabularies only: two models with the same encoder and decoder
    parameters, whatever their [fvocab] and [evocab] fields hold, give the
    same outcomes and the same decoder calls under the same globals. *)
Theorem vocab_fields_unused {L : Layers} (g : Model.globals)
    (m1 m2 : Model.t) (fwords ewords : list string) :
  Model.enc m1 = Model.enc m2 ->
  Model.dec m1 = Model.dec m2 ->
  Model.logprob g m1 fwords ewords = Model.logprob g m2 fwords ewords ∧
  Model.translate g m1 fwords = Model.translate g m2 fwords.
Proof.
  intros Henc Hdec.
  assert (∀ fencs ws h enum acc,
    Model.logprob_loop g m1 fencs ws h enum acc
    = Model.logprob_loop g m2 fencs ws h enum acc) as Hlp.
  { intros fencs ws. induction ws as [|w ws IH]; intros h enum acc; [done|].
    rewrite !logprob_loop_cons, Hdec.
    destruct (Decoder.step _ _ _ _) as [[o h']|]; [|done].
    destruct (Vocab.numberize _ _) as [enum'|]; [|done].
    destruct (vec_get o enum') as [x|]; [|done]. by rewrite IH. }
  assert (∀ fencs n h enum ews,
    Model.translate_loop g m1 fencs n h enum ews
    = Model.translate_loop g m2 fencs n h enum ews) as Htl.
  { intros fencs n. induction n as [|n IH]; intros h enum ews; [done|].
    rewrite !translate_loop_S, Hdec.
    destruct (Decoder.step _ _ _ _) as [[o h']|]; [|done].
    destruct (Vocab.denumberize _ _) as [word|]; [|done].
    destruct (decide (word = Vocab.EOS)); [done|]. by rewrite IH. }
  assert (Model.encode g m1 fwords = Model.encode g m2 fwords) as Hen
    by (unfold Model.encode; by rewrite Henc).
  split.
  - rewrite !logprob_unfold, Hen.
    destruct (Model.encode g m2 fwords) as [fencs|]; [|done].
    destruct (Vocab.numberize _ _) as [enum|]; [apply Hlp|done].
  - rewrite !translate_unfold, Hen.
    destruct (Model.encode g m2 fwords) as [fencs|]; [|done].
    destruct (Vocab.numberize _ _) as [enum|]; [|done]. by rewrite Htl.
Qed.

Lemma vocab_fields_unused_witness :
  Model.logprob Toy.globals Toy.model ["a"; "<EOS>"] ["i"; "<EOS>"]
  = Model.logprob Toy.globals Toy.model_other_vocab ["a"; "<EOS>"] ["i"; "<EOS>"] ∧
  Model.translate Toy.globals Toy.model ["a"; "<EOS>"]
  = Model.translate Toy.globals Toy.model_other_vocab ["a"; "<EOS>"].
Proof.
  apply (vocab_fields_unused (L := Toy.layers) Toy.globals Toy.model
           Toy.model_other_vocab ["a"; "<EOS>"] ["i"; "<EOS>"]);
    reflexivity.
Defined.

Example toy_translate :
  Model.translate Toy.globals Toy.model ["a"; "<EOS>"]
  = ([0; 1; 2; 3], Some ["i"; "like"; "sand"]).
Proof. vm_compute. reflexivity. Qed.

Example toy_translate_cap :
  let r := Model.translate Toy.globals Toy.model_sand ["a"; "<EOS>"] in
  calls r = seq 0 100 ∧ result r = Some (replicate 100 "sand").
Proof. vm_compute. split; reflexivity. Qed.

Example toy_logprob :
  Model.logprob Toy.globals Toy.model ["a"; "<EOS>"] ["i"; "like"; "<EOS>"]
  = ([0; 1; 2], Some 2%Z).
Proof. vm_compute. reflexivity. Qed.

(** ** Checkpoint selection *)

(** Python's [<] on floats is a strict order, NaN comparing false. *)
Section FloatOrder.

Implicit Types x y z : spec_float.

Lemma SFltb_irrefl x : SFltb x x = false.
Proof.
  unfold SFltb. destruct x as [s|s| |s m e]; try destruct s; simpl; try done.
  - rewrite Z.compare_refl. change (Pos.compare_cont Eq m m) with (Pos.compare m m).
    by rewrite Pos.compare_refl.
  - rewrite Z.compare_refl. change (Pos.compare_cont Eq m m) with (Pos.compare m m).
    by rewrite Pos.compare_refl.
Qed.

Lemma SFltb_trans x y z : SFltb x y = true -> SFltb y z = true -> SFltb x z = true.
Proof.
  unfold SFltb.
  destruct x as [s1|s1| |s1 m1 e1], y as [s2|s2| |s2 m2 e2],
    z as [s3|s3| |s3 m3 e3];
    try destruct s1; try destruct s2; try destruct s3; simpl; try done.
  all: change (Pos.compare_cont Eq ?a ?b) with (Pos.compare a b).
  all: destruct (Z.compare_spec e1 e2), (Z.compare_spec e2 e3),
         (Z.compare_spec e1 e3); simpl; try done; try lia.
  all: destruct (Pos.compare_spec m1 m2), (Pos.compare_spec m2 m3),
         (Pos.compare_spec m1 m3); simpl; try done; try lia.
Qed.

Lemma SFltb_asym x y : SFltb x y = true -> SFltb y x = false.
Proof.
  intros Hxy. destruct (SFltb y x) eqn:Hyx; [|done].
  pose proof (SFltb_trans x y x Hxy Hyx) as Hxx.
  by rewrite SFltb_irrefl in Hxx.
Qed.

(** Without NaN the order is total. *)
Lemma SFltb_false_leb x y :
  x ≠ S754_nan -> y ≠ S754_nan -> SFltb x y = false -> SFleb y x = true.
Proof.
  unfold SFltb, SFleb.
  destruct x as [s1|s1| |s1 m1 e1], y as [s2|s2| |s2 m2 e2];
    try destruct s1; try destruct s2; simpl; try done.
  all: change (Pos.compare_cont Eq ?a ?b) with (Pos.compare a b).
  all: intros _ _.
  all: destruct (Z.compare_spec e1 e2), (Z.compare_spec e2 e1);
         simpl; try done; try lia.
  all: destruct (Pos.compare_spec m1 m2), (Pos.compare_spec m2 m1);
         simpl; try done; try lia.
Qed.

Lemma SFltb_cotrans x y z :
  SFltb x z = true -> y ≠ S754_nan -> SFltb x y = true ∨ SFltb y z = true.
Proof.
  unfold SFltb.
  destruct x as [s1|s1| |s1 m1 e1], y as [s2|s2| |s2 m2 e2],
    z as [s3|s3| |s3 m3 e3];
    try destruct s1; try destruct s2; try destruct s3; simpl;
    try done; try (by left); try (by right).
  all: change (Pos.compare_cont Eq ?a ?b) with (Pos.compare a b).
  all: intros Hxz _; revert Hxz.
  all: destruct (Z.compare_spec e1 e2), (Z.compare_spec e2 e3),
         (Z.compare_spec e1 e3); simpl;
         try done; try lia; try (by left); try (by right).
  all: destruct (Pos.compare_spec m1 m2), (Pos.compare_spec m2 m3),
         (Pos.compare_spec m1 m3); simpl;
         try done; try lia; try (by left); try (by right).
Qed.

End FloatOrder.

Section TrainingFacts.
Context {L : Layers} {aux : Type}.
Variable g : Model.globals.
Variable devdata : list Training.pair.
Variable shuffle : list Training.pair -> aux -> list Training.pair * aux.
Variable update : Model.t -> aux -> Training.pair -> Model.t * aux.
Variable item : scalar -> spec_float.
Variable exp : spec_float -> option spec_float.

#[local] Abbreviation state := (Training.state aux).
#[local] Abbreviation epoch :=
  (Training.epoch aux g devdata shuffle update item exp).
#[local] Abbreviation epochs :=
  (Training.epochs aux g devdata shuffle update item exp).
#[local] Abbreviation live_models :=
  (Training.live_models aux g devdata shuffle update item exp).
#[local] Abbreviation dev_losses :=
  (Training.dev_losses aux g devdata shuffle update item exp).
#[local] Abbreviation dev_loss_of := (Training.dev_loss_of g devdata item).
#[local] Abbreviation selected := (Training.selected aux g devdata item).
#[local] Abbreviation selection_inv :=
  (Training.selection_inv aux g devdata item).
#[local] Abbreviation improves := Training.improves.

Implicit Types (st : state) (objs : list (Model.t * spec_float)).

(** What an epoch that completes has done. *)
Lemma epoch_Some st st' :
  epoch st = Some st' ->
  ∃ obj' d,
    is_Some (Training.heap aux st !! Training.m aux st) ∧
    Training.m aux st' = Training.m aux st ∧
    Training.heap aux st' !! Training.m aux st = Some obj' ∧
    dev_loss_of obj' = Some d ∧
    let heap1 := <[Training.m aux st := obj']> (Training.heap aux st) in
    if improves (Training.best_dev_loss aux st) d then
      ∃ l, (l ∉ dom heap1) ∧
        Training.heap aux st' = <[l := obj']> heap1 ∧
        Training.best_model aux st' = Some l ∧
        Training.best_dev_loss aux st' = Some d
    else
      Training.heap aux st' = heap1 ∧
      Training.best_model aux st' = Training.best_model aux st ∧
      Training.best_dev_loss aux st' = Training.best_dev_loss aux st.
Proof.
  unfold Training.epoch.
  destruct (Training.heap aux st !! Training.m aux st) as [obj|] eqn:Hobj;
    [|done]. cbn [mbind option_bind].
  destruct (shuffle _ _) as [data a1].
  destruct (Training.train_pass _ _ _ _ _ _) as [[[[obj' a2] tl] tw]|]; [|done].
  cbn [mbind option_bind].
  destruct (Training.dev_pass g devdata item obj') as [[d dw]|] eqn:Hdev; [|done].
  cbn [mbind option_bind].
  destruct (Training.report _ _ _ _ _); [|done]. cbn [mbind option_bind].
  intros [= <-]. exists obj', d.
  assert (dev_loss_of obj' = Some d) as Hd
    by (unfold Training.dev_loss_of; by rewrite Hdev).
  split; [by eexists|]. cbn zeta.
  destruct (improves _ _) eqn:Himp; simpl.
  - pose proof (is_fresh (dom (<[Training.m aux st := obj']> (Training.heap aux st))))
      as Hfresh.
    split_and!; [done| |done|eexists; split_and!; [exact Hfresh|done..]].
    rewrite lookup_insert_ne; [by rewrite lookup_insert_eq|].
    intros Heq. apply Hfresh. rewrite Heq. apply elem_of_dom.
    rewrite lookup_insert_eq. by eexists.
  - split_and!; [done|by rewrite lookup_insert_eq|done..].
Qed.

Lemma epoch_selection st st' objs :
  selection_inv st objs -> epoch st = Some st' ->
  ∃ obj' d,
    Training.heap aux st' !! Training.m aux st' = Some obj' ∧
    dev_loss_of obj' = Some d ∧
    selection_inv st' (objs ++ [(obj', d)]).
Proof.
  intros [Hnil Hcons] (obj' & d & _ & Hm & Hlive & Hd & Hcase)%epoch_Some.
  exists obj', d. rewrite Hm. split_and!; [done..|]. split.
  - by intros []%app_eq_nil.
  - intros _. cbn zeta in Hcase.
    destruct (improves _ _) eqn:Himp.
    + destruct Hcase as (l & Hfresh & Hheap & Hbm & Hbd).
      exists l, (length objs), obj', d. split_and!; try done.
      * rewrite Hm. intros ->. apply Hfresh, elem_of_dom.
        rewrite lookup_insert_eq. by eexists.
      * rewrite Hheap. by rewrite lookup_insert_eq.
      * by rewrite list_lookup_middle.
      * intros j o d' [[Hj Ho]|[-> [= <- <-]]]%lookup_snoc_Some;
          [|split; [apply SFltb_irrefl|lia]].
        destruct (Hcons ltac:(by intros ->))
          as (l0 & k0 & obj0 & b & _ & _ & _ & Hb & _ & _ & Hall).
        rewrite Hb in Himp. simpl in Himp.
        destruct (Hall j o d' Ho) as [Hnb _]. split.
        -- destruct (SFltb d' d) eqn:Hlt; [|done].
           rewrite <-Hnb. symmetry. by eapply SFltb_trans.
        -- intros _ Hnan.
           destruct (SFltb_cotrans _ d' _ Himp Hnan) as [?|Hob];
             [done|congruence].
    + destruct Hcase as (Hheap & Hbm & Hbd).
      destruct objs as [|o0 objs'].
      { destruct (Hnil eq_refl) as [_ Hnone]. rewrite Hnone in Himp. done. }
      destruct (Hcons ltac:(done))
        as (l & k & obj0 & b & Hl & Hne & Hlo & Hb & Hloss & Hk & Hall).
      exists l, k, obj0, b. split_and!; try congruence.
      * rewrite Hheap. by rewrite lookup_insert_ne.
      * rewrite lookup_app_l; [done|]. by eapply lookup_lt_Some.
      * intros j o d' [[Hj Ho]|[-> [= <- <-]]]%lookup_snoc_Some;
          [by apply (Hall j o d')|].
        rewrite Hb in Himp. split; [done|]. intros Hlt.
        apply lookup_lt_Some in Hk. lia.
Qed.

(** [n] epochs that complete, from a state that satisfies the invariant. *)
Lemma epochs_selection n st st' objs :
  selection_inv st objs -> epochs n st = Some st' ->
  length (live_models n st) = n ∧
  selection_inv st' (objs ++ live_models n st).
Proof.
  revert st objs. induction n as [|n IH]; intros st objs Hinv.
  - intros [= <-]. simpl. by rewrite app_nil_r.
  - simpl. destruct (epoch st) as [st1|] eqn:Hst1; [|done].
    cbn [mbind option_bind]. intros Hst'.
    destruct (epoch_selection st st1 objs Hinv Hst1) as (obj' & d & Hlive & Hd & Hinv1).
    rewrite Hlive, Hd.
    destruct (IH st1 (objs ++ [(obj', d)]) Hinv1 Hst') as [Hlen Hinv'].
    split; [simpl; by rewrite Hlen|]. by rewrite <-app_assoc in Hinv'.
Qed.

Lemma initial_selection model a data :
  selection_inv (Training.initial aux model a data) [].
Proof. by split. Qed.

End TrainingFacts.

(** C9, as the code has it.  When [n] epochs have completed: one held-out
    loss has been observed per epoch; [best_dev_loss] is unset exactly
    before the first epoch; from the first epoch on [best_model] is an
    object of its own whose held-out loss is [best_dev_loss], which is one
    of the losses observed and which no observed loss is strictly below,
    so that it is at most every observed loss that, like it, is not NaN.
    An epoch that completes next makes a new copy of the live model, and
    records the epoch's loss, exactly when [best_dev_loss] is unset or the
    loss is strictly below it, and otherwise copies nothing and keeps
    both; so [best_dev_loss] never goes up. *)
Theorem checkpoint_selection {L : Layers} {aux : Type} (g : Model.globals)
    (devdata : list Training.pair)
    (shuffle : list Training.pair -> aux -> list Training.pair * aux)
    (update : Model.t -> aux -> Training.pair -> Model.t * aux)
    (item : scalar -> spec_float) (exp : spec_float -> option spec_float)
    (model : Model.t) (a : aux) (data : list Training.pair) (n : nat)
    (st : Training.state aux) :
  Training.epochs aux g devdata shuffle update item exp n
    (Training.initial aux model a data) = Some st ->
  let seen :=
    Training.dev_losses aux g devdata shuffle update item exp n
      (Training.initial aux model a data) in
  length seen = n ∧
  (Training.best_dev_loss aux st = None ↔ n = 0) ∧
  (0 < n ->
   ∃ l obj b,
     Training.best_model aux st = Some l ∧
     l ≠ Training.m aux st ∧
     Training.heap aux st !! l = Some obj ∧
     Training.best_dev_loss aux st = Some b ∧
     Training.dev_loss_of g devdata item obj = Some b ∧
     b ∈ seen ∧
     ∀ d, d ∈ seen ->
       SFltb d b = false ∧
       (d ≠ S754_nan -> b ≠ S754_nan -> SFleb b d = true)) ∧
  ∀ st',
    Training.epoch aux g devdata shuffle update item exp st = Some st' ->
    ∃ obj' d,
      Training.heap aux st' !! Training.m aux st' = Some obj' ∧
      Training.dev_loss_of g devdata item obj' = Some d ∧
      ((Training.best_dev_loss aux st = None ∨
        ∃ b, Training.best_dev_loss aux st = Some b ∧ SFltb d b = true) ->
       ∃ l,
         (l ∉ dom (Training.heap aux st)) ∧
         dom (Training.heap aux st') = {[l]} ∪ dom (Training.heap aux st) ∧
         l ≠ Training.m aux st' ∧
         Training.heap aux st' !! l = Some obj' ∧
         Training.best_model aux st' = Some l ∧
         Training.best_dev_loss aux st' = Some d) ∧
      (¬ (Training.best_dev_loss aux st = None ∨
          ∃ b, Training.best_dev_loss aux st = Some b ∧ SFltb d b = true) ->
       dom (Training.heap aux st') = dom (Training.heap aux st) ∧
       Training.best_model aux st' = Training.best_model aux st ∧
       Training.best_dev_loss aux st' = Training.best_dev_loss aux st) ∧
      (∀ b b',
         Training.best_dev_loss aux st = Some b ->
         Training.best_dev_loss aux st' = Some b' ->
         SFltb b b' = false).
Proof.
  intros Hst seen.
  destruct (epochs_selection g devdata shuffle update item exp n _ st []
              (initial_selection g devdata item model a data) Hst)
    as [Hlen [Hnil Hcons]].
  rewrite app_nil_l in Hnil, Hcons.
  assert (length seen = n) as Hseen.
  { unfold seen, Training.dev_losses. by rewrite length_fmap. }
  split; [done|]. split_and!.
  - split.
    + intros Hnone. destruct (Training.live_models _ _ _ _ _ _ _ _ _)
        as [|o objs] eqn:Hobjs; [by simpl in Hlen|].
      destruct (Hcons ltac:(done)) as (? & ? & ? & ? & _ & _ & _ & Hb & _).
      congruence.
    + intros ->. apply Hnil. by apply nil_length_inv.
  - intros Hn.
    destruct Hcons as (l & k & obj & b & Hl & Hne & Hlo & Hb & Hloss & Hk & Hall).
    { intros Ho. rewrite Ho in Hlen. simpl in Hlen. lia. }
    exists l, obj, b. split_and!; try done.
    + unfold seen, Training.dev_losses. apply list_elem_of_fmap.
      exists (obj, b). split; [done|]. apply list_elem_of_lookup. by exists k.
    + intros d [[o d'] [-> [j Hj]%list_elem_of_lookup]]%list_elem_of_fmap.
      destruct (Hall j o d' Hj) as [Hnb _]. split; [done|].
      intros Hdn Hbn. by apply SFltb_false_leb.
  - intros st' (obj' & d & [obj Hobj] & Hm & Hlive & Hd & Hcase)%epoch_Some.
    exists obj', d. rewrite Hm. split; [done|]. split; [done|].
    assert (dom (<[Training.m aux st := obj']> (Training.heap aux st))
            = dom (Training.heap aux st)) as Hdom.
    { rewrite dom_insert_L. apply subseteq_union_1_L, singleton_subseteq_l.
      apply elem_of_dom. by eexists. }
    assert (Training.improves (Training.best_dev_loss aux st) d = true ↔
            (Training.best_dev_loss aux st = None ∨
             ∃ b, Training.best_dev_loss aux st = Some b ∧ SFltb d b = true))
      as Himp_iff.
    { unfold Training.improves.
      destruct (Training.best_dev_loss aux st) as [b|]; split.
      - intros Hlt. right. by exists b.
      - by intros [?|(b' & [= <-] & Hlt)].
      - by left.
      - done. }
    cbn zeta in Hcase.
    destruct (Training.improves _ _) eqn:Himp; split_and!.
    + intros _. destruct Hcase as (l & Hfresh & Hheap & Hbm & Hbd).
      rewrite Hdom in Hfresh. exists l. split_and!; try done.
      * by rewrite Hheap, dom_insert_L, Hdom.
      * intros ->. apply Hfresh, elem_of_dom. by eexists.
      * rewrite Hheap. by rewrite lookup_insert_eq.
    + intros Hno. exfalso. apply Hno. by apply Himp_iff.
    + destruct Hcase as (l & _ & _ & _ & Hbd). intros b b' Hb Hb'.
      rewrite Hb in Himp. simpl in Himp. rewrite Hbd in Hb'.
      injection Hb' as <-. by apply SFltb_asym.
    + intros Hyes%Himp_iff. done.
    + intros _. destruct Hcase as (Hheap & Hbm & Hbd).
      by rewrite Hheap, Hdom.
    + destruct Hcase as (_ & _ & Hbd). intros b b' Hb Hb'.
      rewrite Hbd, Hb in Hb'. injection Hb' as <-. apply SFltb_irrefl.
Qed.

Lemma checkpoint_selection_witness :
  ∃ st,
    Training.epochs (L := Toy.layers) unit Toy.globals Toy.data Toy.shuffle
      Toy.update Toy.item Toy.exp 3 (Training.initial unit Toy.model tt Toy.data)
    = Some st ∧
    ∃ l obj b,
      Training.best_model unit st = Some l ∧
      Training.heap unit st !! l = Some obj ∧
      Training.best_dev_loss unit st = Some b ∧
      Training.dev_loss_of (L := Toy.layers) Toy.globals Toy.data Toy.item obj
      = Some b.
Proof.
  destruct (Training.epochs (L := Toy.layers) unit Toy.globals Toy.data
              Toy.shuffle Toy.update Toy.item Toy.exp 3
              (Training.initial unit Toy.model tt Toy.data)) as [st|] eqn:Hst;
    [|vm_compute in Hst; discriminate Hst].
  exists st. split; [reflexivity|].
  destruct (checkpoint_selection (L := Toy.layers) Toy.globals Toy.data
              Toy.shuffle Toy.update Toy.item Toy.exp Toy.model tt Toy.data 3 st
              Hst) as (_ & _ & Hmin & _).
  destruct Hmin as (l & obj & b & Hl & _ & Hobj & Hb & Hloss & _); [lia|].
  exists l, obj, b. split_and!; assumption.
Defined.

(** C9 as stated fails when a held-out loss is NaN: every comparison with
    NaN is false, so a NaN loss in the first epoch is kept whatever
    follows.  Here the losses observed are NaN and then 3, and
    [best_dev_loss] stays NaN, which is not at most 3. *)
Lemma checkpoint_selection_counterexample :
  ¬ (∀ (L : Layers) (aux : Type) (g : Model.globals)
       (devdata : list Training.pair)
       (shuffle : list Training.pair -> aux -> list Training.pair * aux)
       (update : Model.t -> aux -> Training.pair -> Model.t * aux)
       (item : scalar -> spec_float) (exp : spec_float -> option spec_float)
       (model : Model.t) (a : aux) (data : list Training.pair) (n : nat)
       (st : Training.state aux) (b d : spec_float),
       Training.epochs aux g devdata shuffle update item exp n
         (Training.initial aux model a data) = Some st ->
       Training.best_dev_loss aux st = Some b ->
       d ∈ Training.dev_losses aux g devdata shuffle update item exp n
             (Training.initial aux model a data) ->
       SFleb b d = true).
Proof.
  intros H.
  destruct (Training.epochs (L := Toy.layers) unit Toy.globals Toy.data
              Toy.shuffle Toy.update Toy.item_nan Toy.exp 2
              (Training.initial unit Toy.model tt Toy.data)) as [st|] eqn:Hst;
    [|vm_compute in Hst; discriminate Hst].
  specialize (H Toy.layers unit Toy.globals Toy.data Toy.shuffle Toy.update
                Toy.item_nan Toy.exp Toy.model tt Toy.data 2 st S754_nan
                (S754_finite false 3 0) Hst).
  assert (SFleb S754_nan (S754_finite false 3 0) = true) as Hle; [|done].
  apply H.
  - vm_compute in Hst. injection Hst as <-. reflexivity.
  - vm_compute. apply list_elem_of_In. simpl. auto.
Qed.

Example toy_checkpoints :
  Training.best_dev_loss unit
  <$> Training.epochs (L := Toy.layers) unit Toy.globals Toy.data Toy.shuffle
        Toy.update Toy.item Toy.exp 3 (Training.initial unit Toy.model tt Toy.data)
  = Some (Some (S754_finite false 1 0)).
Proof. vm_compute. reflexivity. Qed.

(** * Further properties of the code *)

(** ** Vocabulary: ids, bulk insertion, iteration *)

Section VocabMore.
Import Vocab.

Implicit Types (v : Vocab.t) (word w : string) (num : nat).
Implicit Types words ws : list string.

Lemma len_add v w : len v ≤ len (add w v).
Proof.
  unfold len. destruct (contains v w) eqn:Hw.
  - by rewrite add_present.
  - rewrite add_absent by done. simpl. rewrite length_app. lia.
Qed.

Lemma len_ior v words : len v ≤ len (ior v words).
Proof.
  revert v. induction words as [|w words IH]; intros v; simpl; [done|].
  etrans; [apply (len_add v w)|apply IH].
Qed.

Lemma ior_snoc v words w : ior v (words ++ [w]) = add w (ior v words).
Proof. unfold ior. by rewrite fold_left_app. Qed.

Lemma ior_app v words words' : ior v (words ++ words') = ior (ior v words) words'.
Proof. unfold ior. by rewrite fold_left_app. Qed.

Lemma contains_ior v words w :
  consistent v ->
  contains (ior v words) w = true ↔ contains v w = true ∨ w ∈ words.
Proof.
  intros Hc. rewrite <-!consistent_elem;
    [by apply elem_of_ior|done|by apply consistent_ior].
Qed.

(** Adding words that are all contained changes nothing. *)
Lemma ior_present v words :
  (∀ w, w ∈ words -> contains v w = true) -> ior v words = v.
Proof.
  induction words as [|w words IH]; intros Hall; simpl; [done|].
  rewrite add_present by (apply Hall; by left).
  apply IH. intros w' Hw'. apply Hall. by right.
Qed.

(** A fresh vocabulary lists the reserved words first, whatever is added. *)
Lemma built_prefix v :
  built v -> ∃ order rest, order ≡ₚ reserved ∧ num_to_word v = order ++ rest.
Proof.
  induction 1 as [order Hp|v w Hb (order & rest & Hp & Hv)].
  - exists order, []. by rewrite app_nil_r.
  - destruct (contains v w) eqn:Hw.
    + rewrite add_present by done. eauto.
    + rewrite add_absent by done. simpl. exists order, (rest ++ [w]).
      by rewrite Hv, <-app_assoc.
Qed.

Lemma consistent_numberize v w num :
  consistent v -> num_to_word v !! num = Some w -> numberize v w = Some num.
Proof. intros [_ Htab] Hn. apply numberize_present. by apply Htab. Qed.

End VocabMore.

(** X1. Ids and words correspond both ways: in a vocabulary grown by [add]
    every id below the size denotes a word whose id it is, and
    [denumberize] fails on every id from the size on. *)
Theorem denumberize_numberize (v : Vocab.t) (num : nat) :
  Vocab.built v ->
  (num < Vocab.len v ->
   ∃ w, Vocab.denumberize v num = Some w ∧ Vocab.numberize v w = Some num) ∧
  (Vocab.len v ≤ num -> Vocab.denumberize v num = None).
Proof.
  intros Hb. split.
  - intros [w Hw]%lookup_lt_is_Some_2. exists w. split; [done|].
    apply consistent_numberize; [by apply built_consistent|done].
  - apply lookup_ge_None_2.
Qed.

Lemma denumberize_numberize_witness :
  (∃ w, Vocab.denumberize Toy.evocab 4 = Some w ∧
        Vocab.numberize Toy.evocab w = Some 4) ∧
  Vocab.denumberize Toy.evocab 6 = None.
Proof.
  destruct (denumberize_numberize Toy.evocab 4) as [Hin _].
  { unfold Toy.evocab. repeat apply Vocab.built_add.
    apply Vocab.built_init. reflexivity. }
  destruct (denumberize_numberize Toy.evocab 6) as [_ Hout].
  { unfold Toy.evocab. repeat apply Vocab.built_add.
    apply Vocab.built_init. reflexivity. }
  split; [apply Hin|apply Hout]; vm_compute; lia.
Defined.

(** X2. [numberize] only returns ids that [denumberize] accepts: the id of
    any word, contained or not, is below the size, and the id of a word
    that is not contained denotes ['<UNK>']. *)
Theorem numberize_in_range (v : Vocab.t) (w : string) :
  Vocab.built v ->
  ∃ num, Vocab.numberize v w = Some num ∧ num < Vocab.len v ∧
    (Vocab.contains v w = false -> Vocab.denumberize v num = Some Vocab.UNK).
Proof.
  intros Hb. pose proof (built_consistent v Hb) as [Hnd Htab].
  destruct (numberize_is_Some v w Hb) as [num Hnum]. exists num.
  split; [done|]. unfold Vocab.numberize in Hnum.
  destruct (Vocab.word_to_num v !! w) as [n|] eqn:Hw.
  - injection Hnum as ->. apply Htab in Hw. split; [by eapply lookup_lt_Some|].
    intros Hc%contains_false. apply Htab in Hw. congruence.
  - apply Htab in Hnum. split; [by eapply lookup_lt_Some|done].
Qed.

Lemma numberize_in_range_witness :
  ∃ num, Vocab.numberize Toy.evocab "dune" = Some num ∧
    num < Vocab.len Toy.evocab ∧
    Vocab.denumberize Toy.evocab num = Some Vocab.UNK.
Proof.
  destruct (numberize_in_range Toy.evocab "dune") as (num & Hnum & Hlt & Hunk).
  { unfold Toy.evocab. repeat apply Vocab.built_add.
    apply Vocab.built_init. reflexivity. }
  exists num. split; [exact Hnum|]. split; [exact Hlt|]. apply Hunk. reflexivity.
Defined.

Lemma reserved_position (v : Vocab.t) (r : string) :
  Vocab.built v -> r ∈ Vocab.reserved ->
  ∃ i, i < 3 ∧ Vocab.num_to_word v !! i = Some r ∧ Vocab.numberize v r = Some i.
Proof.
  intros Hb Hr. destruct (built_prefix v Hb) as (order & rest & Hp & Hv).
  rewrite <-Hp in Hr. apply list_elem_of_lookup in Hr as [i Hi].
  assert (i < 3) as Hlt.
  { apply lookup_lt_Some in Hi. by rewrite Hp in Hi. }
  assert (Vocab.num_to_word v !! i = Some r) as Hvi.
  { rewrite Hv, lookup_app_l; [done|]. by eapply lookup_lt_Some. }
  exists i. split_and!; [done..|].
  apply consistent_numberize; [by apply built_consistent|done].
Qed.

(** X3. The three reserved tokens hold the ids 0, 1 and 2 in some order,
    and every other word has an id of 3 or more. *)
Theorem reserved_ids (v : Vocab.t) :
  Vocab.built v ->
  ∃ b e u,
    Vocab.numberize v Vocab.BOS = Some b ∧
    Vocab.numberize v Vocab.EOS = Some e ∧
    Vocab.numberize v Vocab.UNK = Some u ∧
    b < 3 ∧ e < 3 ∧ u < 3 ∧ b ≠ e ∧ b ≠ u ∧ e ≠ u ∧
    ∀ w num,
      w ∉ Vocab.reserved -> Vocab.contains v w = true ->
      Vocab.numberize v w = Some num -> 3 ≤ num.
Proof.
  intros Hb.
  destruct (reserved_position v Vocab.BOS Hb) as (b & Hb3 & Hbw & Hbn);
    [apply list_elem_of_In; simpl; auto|].
  destruct (reserved_position v Vocab.EOS Hb) as (e & He3 & Hew & Hen);
    [apply list_elem_of_In; simpl; auto|].
  destruct (reserved_position v Vocab.UNK Hb) as (u & Hu3 & Huw & Hun);
    [apply list_elem_of_In; simpl; auto|].
  exists b, e, u. split_and!; try done.
  - intros ->. rewrite Hbw in Hew. discriminate Hew.
  - intros ->. rewrite Hbw in Huw. discriminate Huw.
  - intros ->. rewrite Hew in Huw. discriminate Huw.
  - intros w num Hw [n Hn]%contains_true Hnum.
    rewrite (numberize_present v w n Hn) in Hnum. injection Hnum as <-.
    destruct (built_prefix v Hb) as (order & rest & Hp & Hv).
    destruct (built_consistent v Hb) as [_ Htab]. apply Htab in Hn.
    destruct (decide (n < 3)) as [Hlt|]; [|lia]. exfalso. apply Hw.
    rewrite <-Hp. apply list_elem_of_lookup. exists n.
    rewrite Hv, lookup_app_l in Hn; [done|].
    rewrite Hp. simpl. lia.
Qed.

Lemma reserved_ids_witness :
  ∃ b e u,
    Vocab.numberize Toy.evocab Vocab.BOS = Some b ∧
    Vocab.numberize Toy.evocab Vocab.EOS = Some e ∧
    Vocab.numberize Toy.evocab Vocab.UNK = Some u ∧
    b < 3 ∧ e < 3 ∧ u < 3 ∧ b ≠ e ∧ b ≠ u ∧ e ≠ u ∧
    ∀ w num,
      w ∉ Vocab.reserved -> Vocab.contains Toy.evocab w = true ->
      Vocab.numberize Toy.evocab w = Some num -> 3 ≤ num.
Proof.
  apply (reserved_ids Toy.evocab).
  unfold Toy.evocab. repeat apply Vocab.built_add.
  apply Vocab.built_init. reflexivity.
Defined.

(** X4. [|=] is set union and never shrinks the vocabulary: afterwards a
    word is contained exactly when it was contained before or is one of
    the added words, and the size has not gone down. *)
Theorem ior_union (v : Vocab.t) (words : list string) (w : string) :
  Vocab.built v ->
  (Vocab.contains (Vocab.ior v words) w = true ↔
   Vocab.contains v w = true ∨ w ∈ words) ∧
  Vocab.len v ≤ Vocab.len (Vocab.ior v words).
Proof.
  intros Hb. split; [|apply len_ior].
  apply contains_ior. by apply built_consistent.
Qed.

Lemma ior_union_witness :
  (Vocab.contains (Vocab.ior Toy.fvocab ["b"; "c"]) "c" = true ↔
   Vocab.contains Toy.fvocab "c" = true ∨ "c" ∈ ["b"; "c"]) ∧
  Vocab.len Toy.fvocab ≤ Vocab.len (Vocab.ior Toy.fvocab ["b"; "c"]).
Proof.
  apply (ior_union Toy.fvocab ["b"; "c"] "c").
  unfold Toy.fvocab. repeat apply Vocab.built_add.
  apply Vocab.built_init. reflexivity.
Defined.

(** X5. Ids follow first occurrence: after [|=] the word list is the old
    one followed by the added words that were not contained, each once, in
    the order in which they first occur. *)
Theorem ior_first_occurrence (v : Vocab.t) (words : list string) :
  Vocab.built v ->
  Vocab.num_to_word (Vocab.ior v words)
  = Vocab.num_to_word v
    ++ reverse (remove_dups
                  (reverse (filter (λ w, w ∉ Vocab.num_to_word v) words))).
Proof.
  intros Hc%built_consistent. induction words as [|w words IH] using rev_ind.
  - simpl. by rewrite app_nil_r.
  - rewrite ior_snoc, filter_app.
    assert (Vocab.contains (Vocab.ior v words) w = true ↔
            w ∈ Vocab.num_to_word v ∨ w ∈ words) as Hin.
    { rewrite contains_ior by done. by rewrite <-consistent_elem. }
    destruct (decide (w ∈ Vocab.num_to_word v)) as [Hv|Hv].
    + rewrite (filter_cons_False _ w) by tauto. rewrite filter_nil, app_nil_r.
      rewrite add_present by tauto. done.
    + rewrite (filter_cons_True _ w) by done. rewrite filter_nil, reverse_snoc.
      cbn [remove_dups].
      destruct (decide_rel elem_of w _) as [Hw|Hw].
      * rewrite add_present; [done|]. apply Hin. right.
        apply elem_of_reverse, list_elem_of_filter in Hw. tauto.
      * rewrite add_absent.
        -- simpl. rewrite IH, reverse_cons. by rewrite <-app_assoc.
        -- apply not_true_iff_false. rewrite Hin. intros [?|Hws]; [done|].
           apply Hw, elem_of_reverse, list_elem_of_filter. done.
Qed.

Lemma ior_first_occurrence_witness :
  Vocab.num_to_word (Vocab.ior Toy.fvocab ["c"; "b"; "<EOS>"; "d"; "c"])
  = Vocab.num_to_word Toy.fvocab ++ ["c"; "d"].
Proof.
  rewrite (ior_first_occurrence Toy.fvocab ["c"; "b"; "<EOS>"; "d"; "c"]).
  - reflexivity.
  - unfold Toy.fvocab. repeat apply Vocab.built_add.
    apply Vocab.built_init. reflexivity.
Defined.

(** X6. Adding a list of words a second time changes nothing, ids
    included. *)
Theorem ior_idempotent (v : Vocab.t) (words : list string) :
  Vocab.built v ->
  Vocab.ior (Vocab.ior v words) words = Vocab.ior v words.
Proof.
  intros Hc%built_consistent. apply ior_present.
  intros w Hw. apply contains_ior; auto.
Qed.

Lemma ior_idempotent_witness :
  Vocab.ior (Vocab.ior Toy.fvocab ["c"; "b"; "c"]) ["c"; "b"; "c"]
  = Vocab.ior Toy.fvocab ["c"; "b"; "c"].
Proof.
  apply (ior_idempotent Toy.fvocab ["c"; "b"; "c"]).
  unfold Toy.fvocab. repeat apply Vocab.built_add.
  apply Vocab.built_init. reflexivity.
Defined.

(** X7. Iterating over a vocabulary yields its words in id order: the
    ids of the words iterated are 0, 1, ... up to the size. *)
Theorem iter_in_id_order (v : Vocab.t) :
  Vocab.built v ->
  mapM (Vocab.numberize v) (Vocab.iter v) = Some (seq 0 (Vocab.len v)).
Proof.
  intros Hc%built_consistent. apply mapM_Some_2.
  apply Forall2_same_length_lookup_2; [by rewrite length_seq|].
  intros i w num Hw [-> _]%lookup_seq. by apply consistent_numberize.
Qed.

Lemma iter_in_id_order_witness :
  mapM (Vocab.numberize Toy.evocab) (Vocab.iter Toy.evocab)
  = Some (seq 0 (Vocab.len Toy.evocab)).
Proof.
  apply (iter_in_id_order Toy.evocab).
  unfold Toy.evocab. repeat apply Vocab.built_add.
  apply Vocab.built_init. reflexivity.
Defined.

(** ** Main program: the vocabularies of the training data *)

Lemma build_vocabs_from (data : list (list string * list string))
    (fv ev : Vocab.t) :
  fold_left (λ vs pair, (Vocab.ior vs.1 pair.1, Vocab.ior vs.2 pair.2)) data (fv, ev)
  = (Vocab.ior fv (concat data.*1), Vocab.ior ev (concat data.*2)).
Proof.
  revert fv ev. induction data as [|[fw ew] data IH]; intros fv ev; [done|].
  simpl. by rewrite IH, !ior_app.
Qed.

Lemma contained_round_trip (v : Vocab.t) (w : string) :
  Vocab.consistent v -> Vocab.contains v w = true ->
  ∃ num, Vocab.numberize v w = Some num ∧ Vocab.denumberize v num = Some w.
Proof.
  intros [_ Htab] [num Hnum]%contains_true. exists num.
  split; [by apply numberize_present|]. by apply Htab.
Qed.

(** X8. The loop over the training data builds the vocabularies of all
    source words and of all target words, so no word of a training
    sentence is unknown: each has an id of its own, which [denumberize]
    maps back to it. *)
Theorem training_words_known (forder eorder : list string)
    (traindata : list (list string * list string)) :
  forder ≡ₚ Vocab.reserved ->
  eorder ≡ₚ Vocab.reserved ->
  let fvocab := (Main.build_vocabs forder eorder traindata).1 in
  let evocab := (Main.build_vocabs forder eorder traindata).2 in
  fvocab = Vocab.ior (Vocab.init forder) (concat traindata.*1) ∧
  evocab = Vocab.ior (Vocab.init eorder) (concat traindata.*2) ∧
  Vocab.built fvocab ∧ Vocab.built evocab ∧
  ∀ fwords ewords, (fwords, ewords) ∈ traindata ->
    Forall (λ w, ∃ num, Vocab.numberize fvocab w = Some num ∧
                        Vocab.denumberize fvocab num = Some w) fwords ∧
    Forall (λ w, ∃ num, Vocab.numberize evocab w = Some num ∧
                        Vocab.denumberize evocab num = Some w) ewords.
Proof.
  intros Hf He. cbn zeta. unfold Main.build_vocabs.
  rewrite build_vocabs_from. cbn [fst snd].
  pose proof (Vocab.built_init forder Hf) as Hbf.
  pose proof (Vocab.built_init eorder He) as Hbe.
  split_and!; [done|done|by apply built_ior|by apply built_ior|].
  intros fwords ewords Hin. split; apply Forall_forall; intros w Hw.
  - apply contained_round_trip; [by apply consistent_ior, built_consistent|].
    apply contains_ior; [by apply built_consistent|]. right.
    apply list_elem_of_In, in_concat. exists fwords.
    split; [|by apply list_elem_of_In].
    apply list_elem_of_In, list_elem_of_fmap. by exists (fwords, ewords).
  - apply contained_round_trip; [by apply consistent_ior, built_consistent|].
    apply contains_ior; [by apply built_consistent|]. right.
    apply list_elem_of_In, in_concat. exists ewords.
    split; [|by apply list_elem_of_In].
    apply list_elem_of_In, list_elem_of_fmap. by exists (fwords, ewords).
Qed.

Lemma training_words_known_witness :
  let data := [(["a"; "b"; "<EOS>"], ["i"; "like"; "<EOS>"]);
               (["b"; "<EOS>"], ["sand"; "<EOS>"])] in
  let fvocab := (Main.build_vocabs Vocab.reserved Vocab.reserved data).1 in
  let evocab := (Main.build_vocabs Vocab.reserved Vocab.reserved data).2 in
  fvocab = Vocab.ior (Vocab.init Vocab.reserved) (concat data.*1) ∧
  evocab = Vocab.ior (Vocab.init Vocab.reserved) (concat data.*2) ∧
  Vocab.built fvocab ∧ Vocab.built evocab ∧
  ∀ fwords ewords, (fwords, ewords) ∈ data ->
    Forall (λ w, ∃ num, Vocab.numberize fvocab w = Some num ∧
                        Vocab.denumberize fvocab num = Some w) fwords ∧
    Forall (λ w, ∃ num, Vocab.numberize evocab w = Some num ∧
                        Vocab.denumberize evocab num = Some w) ewords.
Proof.
  apply (training_words_known Vocab.reserved Vocab.reserved
           [(["a"; "b"; "<EOS>"], ["i"; "like"; "<EOS>"]);
            (["b"; "<EOS>"], ["sand"; "<EOS>"])]); reflexivity.
Defined.

(** ** Decoder and model: failure, call counts, closed forms *)

Section ModelMore.
Context {L : Layers}.

Implicit Types (g : Model.globals) (self : Model.t) (fencs : list vec).
Implicit Types (h enum n : nat) (ewords : list nat).

Lemma mapM_Forall2_eq {A B : Type} (f : A -> option B) (l k : list A) :
  Forall2 (λ a b, f a = f b) l k -> mapM f l = mapM f k.
Proof. induction 1 as [|a b l k Hab _ IH]; [done|]. simpl. by rewrite Hab, IH. Qed.

Lemma mapM_zip_seq {A B : Type} (f : nat * A -> option B) (f' : nat -> option B)
    (l : list A) h :
  (∀ j a, l !! j = Some a -> f (h + j, a) = f' (h + j)) ->
  mapM f (zip (seq h (length l)) l) = mapM f' (seq h (length l)).
Proof.
  revert h. induction l as [|a l IH]; intros h Hf; [done|]. simpl.
  pose proof (Hf 0 a eq_refl) as H0. rewrite Nat.add_0_r in H0.
  rewrite H0, (IH (S h)); [done|].
  intros j b Hj. replace (S h + j) with (h + S j) by lia. by apply Hf.
Qed.

Lemma score_unfold g self fencs i enum (w : string) :
  Model.score g self fencs i w
  = match Decoder.step (Model.dec self) fencs i enum with
    | Some (o, _) =>
        match Vocab.numberize (Model.g_evocab g) w with
        | Some enum' => vec_get o enum'
        | None => None
        end
    | None => None
    end.
Proof.
  unfold Model.score. rewrite (step_any_enum _ _ _ 0 enum).
  by destruct (Decoder.step _ _ _ _) as [[o h']|].
Qed.

(** The scoring loop in closed form: the scores of the words at their
    positions, added from left to right to the running total. *)
Lemma logprob_loop_sum g self fencs (ws : list string) h enum acc :
  result (Model.logprob_loop g self fencs ws h enum acc)
  = xs ← mapM (λ iw, Model.score g self fencs iw.1 iw.2)
            (zip (seq h (length ws)) ws);
    Some (foldl scalar_add acc xs).
Proof.
  revert h enum acc. induction ws as [|w ws IH]; intros h enum acc; [done|].
  rewrite logprob_loop_cons. cbn [length seq zip zip_with mapM fst snd].
  rewrite (score_unfold g self fencs h enum w).
  destruct (Decoder.step _ _ _ _) as [[o h']|] eqn:Hs; [|done].
  apply step_inv in Hs as [_ ->].
  destruct (Vocab.numberize _ _) as [enum'|]; [|done].
  destruct (vec_get o enum') as [x|]; [|done].
  cbn zeta. unfold result at 1. cbn [snd].
  rewrite IH, Nat.add_1_r. cbn [mbind option_bind].
  by destruct (mapM _ _).
Qed.

Lemma translate_loop_calls_exact g self fencs n h enum ewords ws :
  result (Model.translate_loop g self fencs n h enum ewords) = Some ws ->
  calls (Model.translate_loop g self fencs n h enum ewords)
  = seq h (n `min` S (length ws - length ewords)).
Proof.
  revert h enum ewords ws.
  induction n as [|n IH]; intros h enum ewords ws; [done|].
  rewrite translate_loop_S.
  destruct (Decoder.step _ _ _ _) as [[o h']|] eqn:Hs; [|done].
  apply step_inv in Hs as [_ ->].
  destruct (Vocab.denumberize _ _) as [word|]; [|done].
  destruct (decide (word = Vocab.EOS)).
  - intros [= <-]. rewrite Nat.sub_diag. simpl. by rewrite Nat.min_0_r.
  - cbn zeta. unfold result at 1, calls at 1. cbn [fst snd]. intros Hr.
    rewrite (IH _ _ _ _ Hr).
    apply translate_loop_result in Hr as (new & words & -> & _).
    rewrite !length_app. simpl.
    replace (length ewords + 1 + length new - (length ewords + 1))
      with (length new) by lia.
    replace (length ewords + 1 + length new - length ewords)
      with (S (length new)) by lia.
    by rewrite Nat.add_1_r.
Qed.

(** What a returned translation tells about the run that produced it. *)
Lemma translate_result_inv g self fwords ws :
  result (Model.translate g self fwords) = Some ws ->
  ∃ fencs enum,
    Model.encode g self fwords = Some fencs ∧
    Vocab.numberize (Model.g_evocab g) Vocab.BOS = Some enum ∧
    length ws ≤ 100 ∧
    (∀ j w, ws !! j = Some w ->
       Model.choice g self fencs j = Some w ∧ w ≠ Vocab.EOS) ∧
    (length ws = 100 ∨ Model.choice g self fencs (length ws) = Some Vocab.EOS) ∧
    calls (Model.translate g self fwords) = seq 0 (100 `min` S (length ws)).
Proof.
  rewrite translate_unfold.
  destruct (Model.encode _ _ _) as [fencs|]; [|done].
  destruct (Vocab.numberize _ _) as [enum|]; [|done].
  destruct (Model.translate_loop g self fencs 100 0 enum []) as [tr res] eqn:Hloop.
  assert (calls (Model.translate_loop g self fencs 100 0 enum []) = tr) as Hc
    by by rewrite Hloop.
  assert (result (Model.translate_loop g self fencs 100 0 enum []) = res) as Hr
    by by rewrite Hloop.
  unfold result, calls. cbn [fst snd].
  destruct res as [ews|]; [|done]. cbn [mbind option_bind].
  pose proof (translate_loop_calls_exact _ _ _ _ _ _ _ _ Hr) as Hcalls.
  apply translate_loop_result in Hr as (new & words & -> & Hf & Hlen & Hpos & Hend).
  rewrite app_nil_l, (mapM_Some_2 _ _ _ Hf). intros [= <-].
  exists fencs, enum. split_and!; try done.
  rewrite <-Hc, Hcalls, app_nil_l. cbn [length]. rewrite Nat.sub_0_r.
  by rewrite (Forall2_length _ _ _ Hf).
Qed.

Lemma choice_scores g self fencs i w :
  Vocab.consistent (Model.g_evocab g) ->
  Model.choice g self fencs i = Some w ->
  Model.score g self fencs i w = Model.top_score g self fencs i.
Proof.
  intros Hc. unfold Model.choice, Model.score, Model.top_score.
  destruct (Decoder.step _ _ _ _) as [[o h']|]; [|done]. simpl.
  intros Hw. by rewrite (consistent_numberize _ _ _ Hc Hw).
Qed.

End ModelMore.

(** X10. [logprob] in closed form: it fails when a source word or
    ['<BOS>'] cannot be numberized or some position cannot be scored, and
    otherwise returns the scores [o[enum]] of the target words at their
    positions [0, 1, ...], added from left to right starting from 0. *)
Theorem logprob_is_sum {L : Layers} (g : Model.globals) (self : Model.t)
    (fwords ewords : list string) :
  result (Model.logprob g self fwords ewords)
  = fencs ← Model.encode g self fwords;
    _ ← Vocab.numberize (Model.g_evocab g) Vocab.BOS;
    xs ← mapM (λ iw, Model.score g self fencs iw.1 iw.2)
            (zip (seq 0 (length ewords)) ewords);
    Some (foldl scalar_add scalar_zero xs).
Proof.
  rewrite logprob_unfold.
  destruct (Model.encode _ _ _) as [fencs|]; [|done].
  destruct (Vocab.numberize _ _) as [enum|]; [|done].
  apply logprob_loop_sum.
Qed.

(** X11. When [logprob] returns it has called [step] once per target word,
    with the states [0, 1, ...] in order, and the target sentence has at
    most [maxlen] words. *)
Theorem logprob_one_step_per_word {L : Layers} (g : Model.globals)
    (self : Model.t) (fwords ewords : list string) :
  is_Some (result (Model.logprob g self fwords ewords)) ->
  calls (Model.logprob g self fwords ewords) = seq 0 (length ewords) ∧
  length ewords ≤ Decoder.maxlen.
Proof.
  intros Hsome.
  destruct (logprob_calls g self fwords ewords) as (k & _ & Hc & Hk).
  destruct (Hk Hsome) as [-> Hlen]. done.
Qed.

Lemma logprob_one_step_per_word_witness :
  calls (Model.logprob Toy.globals Toy.model ["a"; "<EOS>"] ["i"; "like"; "<EOS>"])
  = seq 0 3 ∧
  3 ≤ Decoder.maxlen.
Proof.
  apply (logprob_one_step_per_word (L := Toy.layers) Toy.globals Toy.model
           ["a"; "<EOS>"] ["i"; "like"; "<EOS>"]).
  vm_compute. eexists. reflexivity.
Defined.

(** X12. Every word [translate] returns is a word of the module-level
    target vocabulary. *)
Theorem translate_words_in_vocab {L : Layers} (g : Model.globals)
    (self : Model.t) (fwords ws : list string) :
  result (Model.translate g self fwords) = Some ws ->
  Forall (λ w, w ∈ Vocab.iter (Model.g_evocab g)) ws.
Proof.
  intros (fencs & enum & _ & _ & _ & Hpos & _)%translate_result_inv.
  apply Forall_forall. intros w [j Hj]%list_elem_of_lookup.
  apply Hpos in Hj as [Hch _]. unfold Model.choice in Hch.
  destruct (Decoder.step _ _ _ _) as [[o h']|]; [|done]. simpl in Hch.
  apply list_elem_of_lookup. by exists (argmax o).
Qed.

Lemma translate_words_in_vocab_witness :
  Forall (λ w, w ∈ Vocab.iter Toy.evocab) ["i"; "like"; "sand"].
Proof.
  apply (translate_words_in_vocab (L := Toy.layers) Toy.globals Toy.model
           ["a"; "<EOS>"] ["i"; "like"; "sand"]).
  vm_compute. reflexivity.
Defined.

(** X13. A translation of [k] words costs [k + 1] decoder steps, the last
    one being the step that chose ['<EOS>'], and 100 steps when it has 100
    words; the states passed are [0, 1, ...] in order. *)
Theorem translate_step_count {L : Layers} (g : Model.globals)
    (self : Model.t) (fwords ws : list string) :
  result (Model.translate g self fwords) = Some ws ->
  calls (Model.translate g self fwords) = seq 0 (100 `min` S (length ws)).
Proof.
  by intros (fencs & enum & _ & _ & _ & _ & _ & Hc)%translate_result_inv.
Qed.

Lemma translate_step_count_witness :
  calls (Model.translate Toy.globals Toy.model_sand ["a"; "<EOS>"])
  = seq 0 (100 `min` S (length (replicate 100 "sand"))).
Proof.
  apply (translate_step_count (L := Toy.layers) Toy.globals Toy.model_sand
           ["a"; "<EOS>"] (replicate 100 "sand")).
  vm_compute. reflexivity.
Defined.

(** X14. Scoring a model's own translation: when [translate] stopped at
    ['<EOS>'] before the cap, [logprob] of the translation followed by
    ['<EOS>'] is the sum, over the positions used, of the score each
    position gives to its own argmax. *)
Theorem logprob_of_translation {L : Layers} (g : Model.globals)
    (self : Model.t) (fwords ws : list string) :
  Vocab.built (Model.g_evocab g) ->
  result (Model.translate g self fwords) = Some ws ->
  length ws < 100 ->
  result (Model.logprob g self fwords (ws ++ [Vocab.EOS]))
  = fencs ← Model.encode g self fwords;
    xs ← mapM (Model.top_score g self fencs) (seq 0 (S (length ws)));
    Some (foldl scalar_add scalar_zero xs).
Proof.
  intros Hc%built_consistent
    (fencs & enum & Hen & Hbos & _ & Hpos & Hend & _)%translate_result_inv Hlt.
  destruct Hend as [?|Hend]; [lia|].
  rewrite logprob_unfold, Hen, Hbos, logprob_loop_sum. cbn [mbind option_bind].
  rewrite (mapM_zip_seq _ (Model.top_score g self fencs)).
  - rewrite length_app. cbn [length]. by rewrite Nat.add_1_r.
  - intros j w Hj. simpl. apply choice_scores; [done|].
    apply lookup_snoc_Some in Hj as [[_ Hj]|[-> <-]]; [|done].
    by apply Hpos in Hj as [? _].
Qed.

Lemma logprob_of_translation_witness :
  result (Model.logprob Toy.globals Toy.model ["a"; "<EOS>"]
            (["i"; "like"; "sand"] ++ [Vocab.EOS]))
  = fencs ← Model.encode Toy.globals Toy.model ["a"; "<EOS>"];
    xs ← mapM (Model.top_score Toy.globals Toy.model fencs) (seq 0 4);
    Some (foldl scalar_add scalar_zero xs).
Proof.
  apply (logprob_of_translation (L := Toy.layers) Toy.globals Toy.model
           ["a"; "<EOS>"] ["i"; "like"; "sand"]).
  - unfold Toy.globals, Toy.evocab. simpl. repeat apply Vocab.built_add.
    apply Vocab.built_init. reflexivity.
  - vm_compute. reflexivity.
  - simpl. lia.
Defined.

(** X15. Words matter only through their ids: two source sentences, and
    two target sentences, whose words have the same ids position by
    position get the same score and the same translation.  In particular
    any two unknown words are interchangeable. *)
Theorem same_ids_same_results {L : Layers} (g : Model.globals)
    (self : Model.t) (fwords1 fwords2 ewords1 ewords2 : list string) :
  Forall2 (λ a b, Vocab.numberize (Model.g_fvocab g) a
                  = Vocab.numberize (Model.g_fvocab g) b) fwords1 fwords2 ->
  Forall2 (λ a b, Vocab.numberize (Model.g_evocab g) a
                  = Vocab.numberize (Model.g_evocab g) b) ewords1 ewords2 ->
  Model.logprob g self fwords1 ewords1 = Model.logprob g self fwords2 ewords2 ∧
  Model.translate g self fwords1 = Model.translate g self fwords2.
Proof.
  intros Hf He.
  assert (Model.encode g self fwords1 = Model.encode g self fwords2) as Hen.
  { unfold Model.encode. by rewrite (mapM_Forall2_eq _ _ _ Hf). }
  split; [|by rewrite !translate_unfold, Hen].
  rewrite !logprob_unfold, Hen.
  destruct (Model.encode g self fwords2) as [fencs|]; [|done].
  destruct (Vocab.numberize _ _) as [enum|]; [|done].
  generalize 0 (@scalar_zero L). revert enum.
  induction He as [|a b l k Hab _ IH]; intros enum h acc; [done|].
  rewrite !logprob_loop_cons, Hab.
  destruct (Decoder.step _ _ _ _) as [[o h']|]; [|done].
  destruct (Vocab.numberize _ b) as [enum'|]; [|done].
  destruct (vec_get o enum') as [x|]; [|done]. by rewrite IH.
Qed.

Lemma same_ids_same_results_witness :
  Model.logprob Toy.globals Toy.model ["a"; "x"; "<EOS>"] ["i"; "dune"]
  = Model.logprob Toy.globals Toy.model ["a"; "y"; "<EOS>"] ["i"; "<UNK>"] ∧
  Model.translate Toy.globals Toy.model ["a"; "x"; "<EOS>"]
  = Model.translate Toy.globals Toy.model ["a"; "y"; "<EOS>"].
Proof.
  apply (same_ids_same_results (L := Toy.layers) Toy.globals Toy.model
           ["a"; "x"; "<EOS>"] ["a"; "y"; "<EOS>"] ["i"; "dune"] ["i"; "<UNK>"]);
    repeat constructor.
Defined.

(** ** read_data: the line format *)

Section ReadDataFacts.
Import ReadData.

Implicit Types (s cur w line : list N) (ws : list (list N)) (c sep : N).

Lemma length_split_sep_from sep cur s :
  length (split_sep_from sep cur s) = S (length (filter (λ c, c = sep) s)).
Proof.
  revert cur. induction s as [|c s IH]; intros cur; [done|].
  cbn [split_sep_from]. rewrite filter_cons.
  destruct (decide (c = sep)); cbn [length]; by rewrite IH.
Qed.

(** A field ends at the first separator. *)
Lemma split_sep_from_app sep cur s s' :
  sep ∉ s ->
  split_sep_from sep cur (s ++ sep :: s')
  = (cur ++ s) :: split_sep_from sep [] s'.
Proof.
  revert cur. induction s as [|c s IH]; intros cur Hs; simpl.
  - rewrite decide_True by done. by rewrite app_nil_r.
  - rewrite decide_False by (intros ->; apply Hs; by left).
    rewrite IH by (intros ?; apply Hs; by right). by rewrite <-app_assoc.
Qed.

Lemma split_sep_from_last sep cur s :
  sep ∉ s -> split_sep_from sep cur s = [cur ++ s].
Proof.
  revert cur. induction s as [|c s IH]; intros cur Hs; simpl.
  - by rewrite app_nil_r.
  - rewrite decide_False by (intros ->; apply Hs; by left).
    rewrite IH by (intros ?; apply Hs; by right). by rewrite <-app_assoc.
Qed.

Lemma read_line_is_Some line :
  is_Some (read_line line) ↔ length (filter (λ c, c = tab) line) = 1.
Proof.
  unfold read_line, split_sep.
  pose proof (length_split_sep_from tab [] line) as Hlen.
  destruct (split_sep_from tab [] line) as [|f [|e [|x l]]]; simpl in Hlen.
  - lia.
  - split; [by intros []|lia].
  - split; [lia|by eexists].
  - split; [by intros []|lia].
Qed.

(** Every field [split] returns is a word. *)
Lemma split_from_words cur s :
  Forall (λ c, isspace c = false) cur -> Forall word (split_from cur s).
Proof.
  revert cur. induction s as [|c s IH]; intros cur Hcur; simpl.
  - destruct cur; [constructor|]. constructor; [done|constructor].
  - destruct (isspace c) eqn:Hc.
    + destruct cur; [by apply IH|]. constructor; [done|]. by apply IH.
    + apply IH. apply Forall_app. split; [done|]. by constructor.
Qed.

Lemma split_from_word cur w s :
  Forall (λ c, isspace c = false) w ->
  split_from cur (w ++ s) = split_from (cur ++ w) s.
Proof.
  revert cur. induction w as [|c w IH]; intros cur Hw; simpl.
  - by rewrite app_nil_r.
  - apply Forall_cons in Hw as [-> Hw]. rewrite IH by done.
    by rewrite <-app_assoc.
Qed.

Lemma split_from_spaces cur s :
  Forall (λ c, isspace c = true) s ->
  split_from cur s = match cur with [] => [] | _ => [cur] end.
Proof.
  intros Hs. revert cur.
  induction Hs as [|c s Hc _ IH]; intros cur; simpl; [done|]. rewrite Hc.
  destruct cur; [apply (IH [])|]. f_equal. apply (IH []).
Qed.

(** [split] undoes [' '.join], trailing whitespace or not. *)
Lemma split_join ws s :
  Forall word ws -> Forall (λ c, isspace c = true) s ->
  split (join [space] ws ++ s) = ws.
Proof.
  unfold split. intros Hws Hs. induction Hws as [|w ws [Hne Hw] Hws IH].
  - simpl. by rewrite split_from_spaces.
  - destruct ws as [|w' ws].
    + simpl. rewrite split_from_word by done. rewrite split_from_spaces by done.
      simpl. by destruct w.
    + change (join [space] (w :: w' :: ws))
        with (w ++ [space] ++ join [space] (w' :: ws)).
      rewrite <-!app_assoc. rewrite split_from_word by done.
      cbn [app split_from]. change (isspace space) with true. cbn match.
      destruct w; [done|]. by rewrite IH.
Qed.

(** A joined sentence holds no tab. *)
Lemma join_no_tab ws : Forall word ws -> tab ∉ join [space] ws.
Proof.
  assert (∀ w, word w -> tab ∉ w) as Hword.
  { intros w [_ Hw] Hin. rewrite Forall_forall in Hw.
    apply Hw in Hin. vm_compute in Hin. discriminate Hin. }
  induction 1 as [|w ws Hw Hws IH]; [by intros ?%elem_of_nil|].
  destruct ws as [|w' ws]; [by apply Hword|].
  change (join [space] (w :: w' :: ws))
    with (w ++ [space] ++ join [space] (w' :: ws)).
  rewrite !elem_of_app, list_elem_of_singleton.
  intros [?|[?|?]]; [by eapply Hword|done|done].
Qed.

End ReadDataFacts.

(** X16. [read_data] raises exactly when some line does not hold exactly
    one tab: a blank line, a line without a tab, a line with two. *)
Theorem read_data_returns_iff (lines : list ReadData.str) :
  is_Some (ReadData.read_data lines) ↔
  Forall (λ line, length (filter (λ c, c = ReadData.tab) line) = 1) lines.
Proof.
  unfold ReadData.read_data. rewrite mapM_is_Some.
  apply Forall_iff. intros line. apply read_line_is_Some.
Qed.

(** X17. What [read_data] returns has one sentence pair per line, and both
    sides of every pair are words, none empty and none holding whitespace
    (so no tab and no newline either), followed by ['<EOS>']: no sentence
    is empty. *)
Theorem read_data_sentences (lines : list ReadData.str)
    (data : list (list ReadData.str * list ReadData.str)) :
  ReadData.read_data lines = Some data ->
  length data = length lines ∧
  Forall (λ pair, ReadData.sentence pair.1 ∧ ReadData.sentence pair.2) data.
Proof.
  intros Hd%mapM_Some_1. split; [symmetry; by eapply Forall2_length|].
  induction Hd as [|line pair lines data Hline _ IH]; constructor; [|done].
  unfold ReadData.read_line in Hline.
  destruct (ReadData.split_sep _ _) as [|f [|e [|x l]]]; try done.
  injection Hline as <-. simpl.
  split; eexists; (split; [done|]); by apply split_from_words.
Qed.

Lemma read_data_sentences_witness :
  let lines := [ReadData.literal "a  b " ++ [ReadData.tab]
                ++ ReadData.literal "i like sand" ++ [10%N]] in
  let data := [([ReadData.literal "a"; ReadData.literal "b"; ReadData.EOS],
                [ReadData.literal "i"; ReadData.literal "like";
                 ReadData.literal "sand"; ReadData.EOS])] in
  length data = length lines ∧
  Forall (λ pair, ReadData.sentence pair.1 ∧ ReadData.sentence pair.2) data.
Proof.
  intros lines data. apply (read_data_sentences lines data).
  vm_compute. reflexivity.
Defined.

(** X18. The file format round-trips: a line made of the source words
    joined by single spaces, a tab, the target words joined by single
    spaces and a newline is read back as exactly these words, each side
    followed by ['<EOS>']. *)
Theorem read_data_of_formatted
    (pairs : list (list ReadData.str * list ReadData.str)) :
  Forall (λ pair, Forall ReadData.word pair.1 ∧ Forall ReadData.word pair.2)
    pairs ->
  ReadData.read_data
    ((λ pair, ReadData.join [ReadData.space] pair.1 ++ [ReadData.tab]
              ++ ReadData.join [ReadData.space] pair.2 ++ [10%N]) <$> pairs)
  = Some ((λ pair, (pair.1 ++ [ReadData.EOS], pair.2 ++ [ReadData.EOS]))
          <$> pairs).
Proof.
  intros Hp. apply mapM_Some_2.
  induction Hp as [|[fw ew] pairs [Hf He] _ IH]; [constructor|].
  constructor; [|done]. cbn [fst snd].
  unfold ReadData.read_line, ReadData.split_sep.
  change ([ReadData.tab] ++ ?x) with (ReadData.tab :: x).
  rewrite split_sep_from_app by by apply join_no_tab.
  rewrite split_sep_from_last.
  - cbn [app]. rewrite <-(app_nil_r (ReadData.join _ fw)).
    rewrite !split_join; [done|done|by repeat constructor|done|constructor].
  - rewrite elem_of_app, list_elem_of_singleton.
    intros [Hin|?]; [|done]. by apply join_no_tab in Hin.
Qed.

Lemma read_data_of_formatted_witness :
  ReadData.read_data
    [ReadData.literal "a b" ++ [ReadData.tab] ++ ReadData.literal "i like"
     ++ [10%N]]
  = Some [([ReadData.literal "a"; ReadData.literal "b"; ReadData.EOS],
           [ReadData.literal "i"; ReadData.literal "like"; ReadData.EOS])].
Proof.
  apply (read_data_of_formatted
           [([ReadData.literal "a"; ReadData.literal "b"],
             [ReadData.literal "i"; ReadData.literal "like"])]).
  repeat constructor; try discriminate.
Defined.

(** ** Checkpoint selection: which epoch is kept *)

(** X19. Which model the loop keeps: when [n >= 1] epochs have completed,
    [best_model] is an object of its own that still holds the live model
    as it stood at the end of some epoch [k], however much the live model
    has been trained since; no epoch's held-out loss is below that
    epoch's, and that epoch's loss is strictly below every earlier loss
    that is a number.  So among epochs of equal lowest loss the earliest
    is kept. *)
Theorem earliest_lowest_checkpoint {L : Layers} {aux : Type}
    (g : Model.globals) (devdata : list Training.pair)
    (shuffle : list Training.pair -> aux -> list Training.pair * aux)
    (update : Model.t -> aux -> Training.pair -> Model.t * aux)
    (item : scalar -> spec_float) (exp : spec_float -> option spec_float)
    (model : Model.t) (a : aux) (data : list Training.pair) (n : nat)
    (st : Training.state aux) :
  0 < n ->
  Training.epochs aux g devdata shuffle update item exp n
    (Training.initial aux model a data) = Some st ->
  let objs :=
    Training.live_models aux g devdata shuffle update item exp n
      (Training.initial aux model a data) in
  length objs = n ∧
  ∃ l k obj b, Training.selected aux g devdata item st objs l k obj b.
Proof.
  intros Hn Hst objs.
  destruct (epochs_selection g devdata shuffle update item exp n _ st []
              (initial_selection g devdata item model a data) Hst)
    as [Hlen [_ Hcons]].
  rewrite app_nil_l in Hcons. split; [done|]. apply Hcons.
  intros Ho. subst objs. rewrite Ho in Hlen. simpl in Hlen. lia.
Qed.

Lemma earliest_lowest_checkpoint_witness :
  ∃ st,
    Training.epochs (L := Toy.layers) unit Toy.globals Toy.data Toy.shuffle
      Toy.update Toy.item Toy.exp 3 (Training.initial unit Toy.model tt Toy.data)
    = Some st ∧
    let objs :=
      Training.live_models (L := Toy.layers) unit Toy.globals Toy.data
        Toy.shuffle Toy.update Toy.item Toy.exp 3
        (Training.initial unit Toy.model tt Toy.data) in
    length objs = 3 ∧
    ∃ l k obj b,
      Training.selected (L := Toy.layers) unit Toy.globals Toy.data Toy.item
        st objs l k obj b.
Proof.
  destruct (Training.epochs (L := Toy.layers) unit Toy.globals Toy.data
              Toy.shuffle Toy.update Toy.item Toy.exp 3
              (Training.initial unit Toy.model tt Toy.data)) as [st|] eqn:Hst;
    [|vm_compute in Hst; discriminate Hst].
  exists st. split; [reflexivity|].
  apply (earliest_lowest_checkpoint (L := Toy.layers) Toy.globals Toy.data
           Toy.shuffle Toy.update Toy.item Toy.exp Toy.model tt Toy.data 3 st);
    [lia|exact Hst].
Defined.
